(** * flamingo.js: the reactive data-binding core

    A shallow embedding of the reactive core of [src/flamingo.js]: the
    [EventEmitter], the [Observer], the [Template] engine and the [Kiwi]
    component that wires them together, followed by the properties that the
    specification states about them.

    Conventions of the embedding.
    - JavaScript objects live in a [heap] indexed by locations; a reference
      is a location, so aliasing and cyclic container graphs are expressible.
      The fields of the component itself are the record [kiwi].
    - Numbers are the integer fragment of JavaScript numbers ([Z]); strings
      are sequences of 8-bit code units.
    - User-supplied functions (watch callbacks, lifecycle hooks, plain event
      listeners) are identified by a natural number and are observers: a call
      is recorded in the component's [k_log] with its arguments and has no
      other effect. Computed getters are functions of the data.
    - The host's evaluation of an interpolation expression
      ([new Function('data', 'with(data) { return ...; }')(data)]) is a
      parameter of the development, see [Section Core].
    - The target element is represented by its [innerHTML]; the methods bound
      by [_bindMethods], the animation helper and the accessors that proxy the
      data keys on the instance are not represented. *)

From Stdlib Require Import ZArith String Ascii List DecimalString.
From stdpp Require Import base option decidable gmap strings list.

Local Open Scope string_scope.
Local Open Scope list_scope.
Local Open Scope Z_scope.
Local Open Scope nat_scope.

(** ** Values and the heap *)

Definition loc := nat.

(** Primitive values. *)
Inductive prim :=
  | PUndef
  | PNull
  | PBool (b : bool)
  | PNum (n : Z)
  | PStr (s : string).

(** A value is a primitive or a reference to a container (object or array). *)
Inductive value :=
  | VPrim (p : prim)
  | VRef (l : loc).

Coercion VPrim : prim >-> value.

Abbreviation undefined := (VPrim PUndef).

Global Instance prim_eq_dec : EqDecision prim.
Proof. solve_decision. Defined.

Global Instance value_eq_dec : EqDecision value.
Proof. solve_decision. Defined.

(** [a === b] on the values of the model. *)
Definition strict_eq (a b : value) : bool := bool_decide (a = b).

(** [utils.isObject]: [obj !== null && typeof obj === 'object']. *)
Definition isObject (v : value) : bool :=
  match v with
  | VRef _ => true
  | VPrim _ => false
  end.

(** A property of a container is either a data property or the accessor pair
    that [Observer.observe] installs with [Object.defineProperty]; the
    accessor's closure variable [value] is the [cell]. *)
Inductive slot :=
  | Plain (v : value)
  | Tracked (cell : value).

Definition slot_value (s : slot) : value :=
  match s with
  | Plain v => v
  | Tracked v => v
  end.

Definition is_tracked (s : slot) : bool :=
  match s with
  | Tracked _ => true
  | Plain _ => false
  end.

(** The own enumerable properties of a container, in [Object.keys] order
    (insertion order; a new key is appended). *)
Definition object := list (string * slot).

(** Every location denotes a container; the ones outside the map are empty. *)
Abbreviation heap := (gmap loc object).

Fixpoint obj_get (key : string) (o : object) : option slot :=
  match o with
  | [] => None
  | (k, s) :: o' => if decide (k = key) then Some s else obj_get key o'
  end.

(** Redefine the property [key], keeping its position, or append it. *)
Fixpoint obj_set (key : string) (s : slot) (o : object) : object :=
  match o with
  | [] => [(key, s)]
  | (k, s0) :: o' =>
      if decide (k = key) then (k, s) :: o' else (k, s0) :: obj_set key s o'
  end.

Definition obj_at (h : heap) (l : loc) : object := default [] (h !! l).

Definition slot_of (h : heap) (l : loc) (key : string) : option slot :=
  obj_get key (obj_at h l).

(** [Object.keys(obj)]. *)
Definition keys (h : heap) (l : loc) : list string := (obj_at h l).*1.

(** The names that a lookup on a plain object finds on [Object.prototype]
    when the object has no own property of that name; what it finds there is
    a function, or an object for [__proto__], never [undefined]. *)
Definition object_prototype : list string :=
  [ "constructor"; "__defineGetter__"; "__defineSetter__"; "hasOwnProperty";
    "__lookupGetter__"; "__lookupSetter__"; "isPrototypeOf";
    "propertyIsEnumerable"; "toString"; "valueOf"; "__proto__";
    "toLocaleString" ].

(** [obj[key]] for an own property, through the getter when there is one, or
    for a name found nowhere, which reads as [undefined]. An inherited member
    is not a value of the model; the two lookups of the core whose outcome
    depends on one, [is_undefined_at] and [cache_get], account for it. *)
Definition read (h : heap) (l : loc) (key : string) : value :=
  match slot_of h l key with
  | Some s => slot_value s
  | None => undefined
  end.

(** [obj[key] === undefined]. *)
Definition is_undefined_at (h : heap) (l : loc) (key : string) : bool :=
  match slot_of h l key with
  | Some s => strict_eq (slot_value s) undefined
  | None => negb (bool_decide (key ∈ object_prototype))
  end.

Definition put_slot (h : heap) (l : loc) (key : string) (s : slot) : heap :=
  <[l := obj_set key s (obj_at h l)]> h.

(** ** Observer *)

(** The body of [Object.keys(obj).forEach(key => ...)] in [Observer.observe],
    with the recursive call abstracted as [rec]. *)
Fixpoint observe_keys (rec : heap -> value -> option heap) (l : loc)
    (ks : list string) (h : heap) : option heap :=
  match ks with
  | [] => Some h
  | key :: ks' =>
      let value := read h l key in
      match (if isObject value then rec h value else Some h) with
      | Some h1 => observe_keys rec l ks' (put_slot h1 l key (Tracked value))
      | None => None
      end
  end.

(** [Observer.observe(obj)]. The source recursion has no cycle guard; [fuel]
    bounds its depth and [None] is the exhausted call stack. *)
Fixpoint observe (fuel : nat) (h : heap) (obj : value) : option heap :=
  match obj with
  | VPrim _ => Some h
  | VRef l =>
      match fuel with
      | O => None
      | S f => observe_keys (observe f) l (keys h l) h
      end
  end.

(** A change notification: the arguments [(key, newValue, oldValue)] of the
    observer callback. *)
Definition change : Type := string * value * value.

(** The [set] closure of an installed accessor, up to its last statement
    [this.callback(key, newValue, oldValue)], which is returned as the pending
    notification. *)
Definition setter (fuel : nat) (h : heap) (l : loc) (key : string)
    (cell newValue : value) : option (heap * option change) :=
  if strict_eq cell newValue then Some (h, None)
  else
    let oldValue := cell in
    let h1 := put_slot h l key (Tracked newValue) in
    match (if isObject newValue then observe fuel h1 newValue else Some h1) with
    | Some h2 => Some (h2, Some (key, newValue, oldValue))
    | None => None
    end.

(** The assignment [obj[key] = v]: the setter runs when the property is an
    installed accessor, otherwise a data property is written or created. *)
Definition assign (fuel : nat) (h : heap) (l : loc) (key : string) (v : value)
    : option (heap * option change) :=
  match slot_of h l key with
  | Some (Tracked cell) => setter fuel h l key cell v
  | _ => Some (put_slot h l key (Plain v), None)
  end.

(** Results of operations that can fail. The core has no [throw] of its own:
    a [TypeError] is raised by the host when a property of [null] is read or
    something that is not a function is called; [Overflow] is the call stack
    exhausted by a recursion that does not end. *)
Inductive outcome (A : Type) :=
  | Done (a : A)
  | TypeError (msg : string)
  | Overflow.

Arguments Done {A} a.
Arguments TypeError {A} msg.
Arguments Overflow {A}.

Definition obind {A B} (m : outcome A) (f : A -> outcome B) : outcome B :=
  match m with
  | Done a => f a
  | TypeError msg => TypeError msg
  | Overflow => Overflow
  end.

(** An assignment to a property of an observed container, for an observer
    built with [callback]: the callback's call is the last statement of the
    setter, so it runs on the updated heap before the assignment returns. *)
Definition write {W : Type}
    (callback : string -> value -> value -> heap -> W -> outcome (heap * W))
    (fuel : nat) (l : loc) (key : string) (v : value) (h : heap) (w : W)
    : outcome (heap * W) :=
  match assign fuel h l key v with
  | None => Overflow
  | Some (h', None) => Done (h', w)
  | Some (h', Some (k, newValue, oldValue)) => callback k newValue oldValue h' w
  end.

(** ** Template engine *)

(** [\s] of the host's regular expressions and the white space removed by
    [String.prototype.trim], on 8-bit code units. *)
Definition is_space (c : ascii) : bool :=
  bool_decide (nat_of_ascii c ∈ [9; 10; 11; 12; 13; 32; 160]).

(** The code units that [.] does not match. *)
Definition is_line_terminator (c : ascii) : bool :=
  bool_decide (nat_of_ascii c ∈ [10; 13]).

Fixpoint strip_prefix (p s : string) : option string :=
  match p, s with
  | EmptyString, _ => Some s
  | String a p', String b s' => if decide (a = b) then strip_prefix p' s' else None
  | String _ _, EmptyString => None
  end.

(** Backtracking matchers, in continuation-passing style: [k] is the rest of
    the pattern. [ws_star] is the greedy [\s*]. *)
Fixpoint ws_star {R : Type} (k : string -> option R) (s : string) : option R :=
  match s with
  | String c s' =>
      if is_space c then
        match ws_star k s' with
        | Some r => Some r
        | None => k s
        end
      else k s
  | EmptyString => k s
  end.

(** The lazy group [(.+?)]: one more code unit is taken only after the rest of
    the pattern failed; [acc] is the text captured so far. *)
Fixpoint dot_plus_lazy {R : Type} (k : string -> string -> option R)
    (acc s : string) : option R :=
  match s with
  | String c s' =>
      if is_line_terminator c then None
      else
        let acc' := (acc ++ String c EmptyString)%string in
        match k acc' s' with
        | Some r => Some r
        | None => dot_plus_lazy k acc' s'
        end
  | EmptyString => None
  end.

(** A match of [d0 \s*(.+?)\s* d1] (both delimiters escaped, hence literal)
    that starts at the head of [s]: the captured group and the text after the
    match. *)
Definition match_here (d0 d1 s : string) : option (string * string) :=
  match strip_prefix d0 s with
  | Some s0 =>
      ws_star (fun s1 =>
        dot_plus_lazy (fun group s2 =>
          ws_star (fun s3 =>
            match strip_prefix d1 s3 with
            | Some rest => Some (group, rest)
            | None => None
            end) s2) EmptyString s1) s0
  | None => None
  end.

(** [pattern.exec(template)] from [lastIndex], [s] being the template from
    there on: the text skipped before the leftmost match, its group and the
    text after it. *)
Fixpoint exec (d0 d1 s : string) : option (string * string * string) :=
  match match_here d0 d1 s with
  | Some (group, rest) => Some (EmptyString, group, rest)
  | None =>
      match s with
      | EmptyString => None
      | String c s' =>
          match exec d0 d1 s' with
          | Some (skipped, group, rest) => Some (String c skipped, group, rest)
          | None => None
          end
      end
  end.

Fixpoint trim_left (s : string) : string :=
  match s with
  | String c s' => if is_space c then trim_left s' else s
  | EmptyString => EmptyString
  end.

Fixpoint trim_right (s : string) : string :=
  match s with
  | EmptyString => EmptyString
  | String c s' =>
      match trim_right s' with
      | EmptyString => if is_space c then EmptyString else String c EmptyString
      | r => String c r
      end
  end.

(** [String.prototype.trim]. *)
Definition trim (s : string) : string := trim_right (trim_left s).

Inductive token :=
  | Text (value : string)
  | Expression (value : string).

Definition text_token (s : string) : list token :=
  match s with
  | EmptyString => []
  | _ => [Text s]
  end.

(** The [while ((match = pattern.exec(template)) !== null)] loop of
    [Template.compile] and the push of the trailing text; [s] is the template
    from [lastIndex] on. Every match takes at least one code unit, so
    [fuel] above the length of [s] is never exhausted. *)
Fixpoint scan (fuel : nat) (d0 d1 s : string) : list token :=
  match fuel with
  | O => []
  | S f =>
      match exec d0 d1 s with
      | Some (skipped, group, rest) =>
          text_token skipped ++ Expression (trim group) :: scan f d0 d1 rest
      | None => text_token s
      end
  end.

Definition tokenize (d0 d1 template : string) : list token :=
  scan (S (String.length template)) d0 d1 template.

(** What [compile] returns: the [render] closure created by a run of the
    tokenizer ([id] tells the closures of different runs apart), or, because
    [this.cache] is a plain object, a member inherited from
    [Object.prototype] when the template string is its name. *)
Inductive renderer :=
  | Compiled (id : nat) (tokens : list token)
  | Inherited (name : string).

(** A [Template] instance with [escape: true] (the default): the delimiters
    are matched literally. [scans] is a ghost counter of the runs of the
    tokenizer. *)
Record Template := {
  delimiters : string * string;
  cache : gmap string renderer;
  scans : nat
}.

(** [new Template()]. *)
Definition new_template : Template :=
  {| delimiters := ("{{", "}}"); cache := ∅; scans := 0 |}.

(** [this.cache[template]]; whatever it finds is truthy. *)
Definition cache_get (t : Template) (source : string) : option renderer :=
  match cache t !! source with
  | Some r => Some r
  | None =>
      if bool_decide (source ∈ object_prototype) then Some (Inherited source)
      else None
  end.

(** [Template.compile(template)]. *)
Definition compile (source : string) (t : Template) : renderer * Template :=
  match cache_get t source with
  | Some r => (r, t)
  | None =>
      let render :=
        Compiled (scans t) (tokenize (delimiters t).1 (delimiters t).2 source) in
      (render, {| delimiters := delimiters t;
                  cache := <[source := render]> (cache t);
                  scans := S (scans t) |})
  end.

(** The result of evaluating one expression. *)
Inductive evaluation :=
  | Returned (v : value)
  | Threw (message : string).

(** The data object handed to a renderer: its properties in order. *)
Definition context := list (string * value).

Fixpoint ctx_get (key : string) (data : context) : option value :=
  match data with
  | [] => None
  | (k, v) :: data' => if decide (k = key) then Some v else ctx_get key data'
  end.

(** [target[key] = v] on the data object. *)
Fixpoint ctx_set (key : string) (v : value) (data : context) : context :=
  match data with
  | [] => [(key, v)]
  | (k, v0) :: data' =>
      if decide (k = key) then (k, v) :: data' else (k, v0) :: ctx_set key v data'
  end.

Definition show_prim (p : prim) : string :=
  match p with
  | PUndef => "undefined"
  | PNull => "null"
  | PBool true => "true"
  | PBool false => "false"
  | PNum n => NilZero.string_of_int (Z.to_int n)
  | PStr s => s
  end.

(** What [Array.prototype.join] makes of one element: [undefined] and [null]
    give the empty string, a container is shown as a plain object. *)
Definition join_piece (v : value) : string :=
  match v with
  | VPrim PUndef => ""
  | VPrim PNull => ""
  | VPrim p => show_prim p
  | VRef _ => "[object Object]"
  end.

(** What a renderer returns: markup, or (the inherited [constructor]) the
    data object it was given. *)
Inductive rendered :=
  | Markup (html : string)
  | SameObject.

(** ** Event emitter and component state *)

(** The functions found in [_events]: the [watcher] closure that a call of
    [$watch] creates ([id] tells the closures of different calls apart, [key]
    and [callback] are what it captured), or a user function registered with
    [on]. Equality is the identity of the function. *)
Inductive listener :=
  | Watcher (id : nat) (key : string) (callback : nat)
  | Handler (fn : nat).

Global Instance listener_eq_dec : EqDecision listener.
Proof. solve_decision. Defined.

Inductive hook :=
  | Created
  | BeforeMount
  | Mounted
  | BeforeUpdate
  | Updated
  | BeforeDestroy
  | Destroyed.

Global Instance hook_eq_dec : EqDecision hook.
Proof. solve_decision. Defined.

(** What the user-visible effects of a run are recorded as. *)
Inductive entry :=
  | Called (callback : nat) (newValue oldValue : value)
  | Handled (fn : nat) (args : list value)
  | Hooked (name : hook) (args : list value)
  | MaxListenersWarning (event : string) (limit : nat)
  | ConsoleError (message : string)
  | InnerHTML (html : string).

(** A computed getter reads the component's data and derives a primitive. *)
Definition getter : Type := heap -> loc -> prim.

(** The options a component is built from (and [this.options] afterwards):
    [element] is the markup of the target element, [None] when the option is
    absent or its selector matches nothing (the console warning of the second
    case is not recorded); [data] lists the own properties of the initial
    data, the containers they refer to being in the heap; [computed] and
    [watch] list the entries that are functions; [hooks] lists the lifecycle
    hooks that are functions. *)
Record options := {
  element : option string;
  data : list (string * value);
  computed : list (string * getter);
  watch : list (string * nat);
  template : option string;
  hooks : list hook
}.

(** The fields of a [Kiwi] instance; a [None] is [null]. [k_el] holds the
    [innerHTML] of [this.el]. [k_timers] are the callbacks handed to
    [setTimeout]; [k_next] numbers the closures; [k_log] is the record of the
    effects so far. The accessors that proxy the data keys on the instance
    forward to [this.data[key]] and are not represented. *)
Record kiwi := {
  k_events : gmap string (list listener);
  k_maxListeners : nat;
  k_el : option string;
  k_options : option options;
  k_data : option loc;
  k_computed : option (list (string * getter));
  k_templateEngine : option Template;
  k_timers : list (option nat);
  k_next : nat;
  k_log : list entry
}.

Definition with_events (ev : gmap string (list listener)) (c : kiwi) : kiwi :=
  {| k_events := ev; k_maxListeners := k_maxListeners c; k_el := k_el c;
     k_options := k_options c; k_data := k_data c; k_computed := k_computed c;
     k_templateEngine := k_templateEngine c; k_timers := k_timers c;
     k_next := k_next c; k_log := k_log c |}.

Definition with_log (log : list entry) (c : kiwi) : kiwi :=
  {| k_events := k_events c; k_maxListeners := k_maxListeners c; k_el := k_el c;
     k_options := k_options c; k_data := k_data c; k_computed := k_computed c;
     k_templateEngine := k_templateEngine c; k_timers := k_timers c;
     k_next := k_next c; k_log := log |}.

Definition record (es : list entry) (c : kiwi) : kiwi :=
  with_log (k_log c ++ es) c.

Definition with_next (n : nat) (c : kiwi) : kiwi :=
  {| k_events := k_events c; k_maxListeners := k_maxListeners c; k_el := k_el c;
     k_options := k_options c; k_data := k_data c; k_computed := k_computed c;
     k_templateEngine := k_templateEngine c; k_timers := k_timers c;
     k_next := n; k_log := k_log c |}.


(** The effect of [this.el.innerHTML = html] after a render that used the
    template engine [t]. *)
Definition with_render (html : string) (t : Template) (c : kiwi) : kiwi :=
  {| k_events := k_events c; k_maxListeners := k_maxListeners c;
     k_el := Some html;
     k_options := k_options c; k_data := k_data c; k_computed := k_computed c;
     k_templateEngine := Some t; k_timers := k_timers c;
     k_next := k_next c; k_log := k_log c |}.

(** [EventEmitter.on]. *)
Definition on (event : string) (callback : listener) (c : kiwi) : kiwi :=
  let registered := default [] (k_events c !! event) in
  let c1 :=
    if decide (k_maxListeners c <= length registered) then
      record [MaxListenersWarning event (k_maxListeners c)] c
    else c in
  with_events (<[event := registered ++ [callback]]> (k_events c1)) c1.

(** [EventEmitter.off]; [callback] is [None] when the argument is omitted. *)
Definition off (event : string) (callback : option listener) (c : kiwi) : kiwi :=
  match k_events c !! event with
  | None => c
  | Some registered =>
      match callback with
      | None => with_events (delete event (k_events c)) c
      | Some f =>
          with_events
            (<[event := filter (fun cb => cb <> f) registered]> (k_events c)) c
      end
  end.

(** [callback.apply(this, args)] for one registered function. The watcher
    closure is [(changedKey, newValue, oldValue) => { if (changedKey === key)
    callback.call(this, newValue, oldValue) }]. *)
Definition call_listener (args : list value) (f : listener) : list entry :=
  match f with
  | Watcher _ key callback =>
      let changedKey := nth 0 args undefined in
      let newValue := nth 1 args undefined in
      let oldValue := nth 2 args undefined in
      if strict_eq changedKey (PStr key) then [Called callback newValue oldValue]
      else []
  | Handler fn => [Handled fn args]
  end.

(** [EventEmitter.emit]: its result and the state after the calls. *)
Definition emit (event : string) (args : list value) (c : kiwi) : bool * kiwi :=
  match k_events c !! event with
  | None => (false, c)
  | Some registered => (true, record (flat_map (call_listener args) registered) c)
  end.

(** [Kiwi.$watch(key, callback)] for a string [key]: the watcher it
    registered, which is what the returned unwatch function captured, and the
    state after. *)
Definition kiwi_watch (key : string) (callback : nat) (c : kiwi) : listener * kiwi :=
  let watcher := Watcher (k_next c) key callback in
  (watcher, on "dataChange" watcher (with_next (S (k_next c)) c)).

(** The function returned by [$watch]: [() => { this.off('dataChange',
    watcher) }]. *)
Definition unwatch (watcher : listener) (c : kiwi) : kiwi :=
  off "dataChange" (Some watcher) c.

(** [$watch(mapping)] and [_setupWatchers]: one [$watch] per entry; the
    component itself is returned. *)
Definition kiwi_watch_all (handlers : list (string * nat)) (c : kiwi) : kiwi :=
  foldl (fun c' '(key, handler) => (kiwi_watch key handler c').2) c handlers.


(** Truthiness of a string or [null]. *)
Definition truthy (s : option string) : bool :=
  match s with
  | Some EmptyString => false
  | Some _ => true
  | None => false
  end.

Definition has_hook (name : hook) (o : options) : bool :=
  bool_decide (name ∈ hooks o).

(** [if (utils.isFunction(this.options.<name>)) this.options.<name>.call(this,
    ...args)]. *)
Definition run_hook (name : hook) (args : list value) (o : options) (c : kiwi) : kiwi :=
  if has_hook name o then record [Hooked name args] c else c.


(** [Kiwi.$destroy()]. *)
Definition kiwi_destroy (c : kiwi) : outcome kiwi :=
  match k_options c with
  | None => TypeError "Cannot read properties of null (reading 'beforeDestroy')"
  | Some o =>
      let c1 := run_hook BeforeDestroy [] o c in
      let c2 := with_events ∅ c1 in
      let c3 := run_hook Destroyed [] o c2 in
      Done {| k_events := k_events c3; k_maxListeners := k_maxListeners c3;
              k_el := None; k_options := None; k_data := None;
              k_computed := None; k_templateEngine := None;
              k_timers := k_timers c3; k_next := k_next c3; k_log := k_log c3 |}
  end.

Section Core.

(** The host's evaluation of [new Function('data', 'with(data) { return
    <expression>; }')(data)] on a heap: the value returned or the exception
    thrown. Expressions are taken to be free of side effects. *)
Variable evaluate : heap -> context -> string -> evaluation.

(** The function mapped over [tokens] by the [render] closure. Its second
    component is what it writes with [console.error]. *)
Definition render_token (h : heap) (data : context) (tok : token)
    : value * list string :=
  match tok with
  | Text v => (VPrim (PStr v), [])
  | Expression e =>
      match evaluate h data e with
      | Returned v =>
          (if strict_eq v undefined then VPrim (PStr "") else v, [])
      | Threw message =>
          (VPrim (PStr ""), [("Template error: " ++ message)%string])
      end
  end.

(** [tokens.map(...)], with the diagnostics in the order they are written. *)
Fixpoint map_tokens (h : heap) (data : context) (tokens : list token)
    : list value * list string :=
  match tokens with
  | [] => ([], [])
  | tok :: rest =>
      let '(piece, errs) := render_token h data tok in
      let '(pieces, errs') := map_tokens h data rest in
      (piece :: pieces, errs ++ errs')
  end.

(** [pieces.join('')]. *)
Fixpoint join (pieces : list value) : string :=
  match pieces with
  | [] => EmptyString
  | piece :: rest => (join_piece piece ++ join rest)%string
  end.

(** The call [renderFn(data)] of [Template.render], in strict code, so with
    [this] undefined. An inherited [toString] answers for [undefined], the
    inherited [constructor] returns its argument, and the other members of
    [Object.prototype] throw (they need an object for [this], or are not
    functions). *)
Definition call_renderer (r : renderer) (h : heap) (data : context)
    : outcome (rendered * list string) :=
  match r with
  | Compiled _ tokens =>
      let '(pieces, errs) := map_tokens h data tokens in
      Done (Markup (join pieces), errs)
  | Inherited name =>
      if decide (name = "toString") then Done (Markup "[object Undefined]", [])
      else if decide (name = "constructor") then Done (SameObject, [])
      else TypeError "not a function, or called on undefined"
  end.

(** [Template.render(template, data)] and the engine after the call. *)
Definition render (source : string) (data : context) (h : heap) (t : Template)
    : outcome (rendered * list string) * Template :=
  let '(renderFn, t') := compile source t in
  (call_renderer renderFn h data, t').

(** [utils.extend({}, this.data, this.computed)]: the own properties of the
    data container read through their accessors, then one value per
    computed entry, read through its getter. The target is fresh and a
    computed value is primitive, so every step is a plain assignment. *)
Definition templateData (h : heap) (c : kiwi) : context :=
  match k_data c with
  | None => []
  | Some l =>
      let own := foldl (fun target key => ctx_set key (read h l key) target)
                       [] (keys h l) in
      foldl (fun target '(name, get) => ctx_set name (VPrim (get h l)) target)
            own (default [] (k_computed c))
  end.

(** What [el.innerHTML = html] stores. *)
Definition markup_of (r : rendered) : string :=
  match r with
  | Markup html => html
  | SameObject => "[object Object]"
  end.

(** [Kiwi._renderTemplate()]. *)
Definition renderTemplate (h : heap) (c : kiwi) : outcome kiwi :=
  match k_el c with
  | None => Done c
  | Some _ =>
      match k_options c with
      | None => TypeError "Cannot read properties of null (reading 'template')"
      | Some o =>
          if truthy (template o) then
            match k_templateEngine c with
            | None => TypeError "Cannot read properties of null (reading 'render')"
            | Some t =>
                let '(result, t') :=
                  render (default EmptyString (template o)) (templateData h c) h t in
                match result with
                | Done (out, errs) =>
                    let html := markup_of out in
                    Done (record (map ConsoleError errs ++ [InnerHTML html])
                                 (with_render html t' c))
                | TypeError msg => TypeError msg
                | Overflow => Overflow
                end
            end
          else Done c
      end
  end.

Definition change_args (key : string) (newValue oldValue : value) : list value :=
  [VPrim (PStr key); newValue; oldValue].

(** The callback given to the [Observer] in [Kiwi._setupReactivity]. *)
Definition on_change (key : string) (newValue oldValue : value)
    (h : heap) (c : kiwi) : outcome (heap * kiwi) :=
  let c1 := (emit "dataChange" (change_args key newValue oldValue) c).2 in
  match k_options c1 with
  | None => TypeError "Cannot read properties of null (reading 'beforeUpdate')"
  | Some o =>
      let c2 := run_hook BeforeUpdate (change_args key newValue oldValue) o c1 in
      obind (if truthy (template o) && bool_decide (is_Some (k_el c2))
             then renderTemplate h c2 else Done c2)
        (fun c3 =>
           Done (h, run_hook Updated (change_args key newValue oldValue) o c3))
  end.

(** The assignment [this.data[key] = value] (also what the proxy on the
    instance does). *)
Definition data_write (fuel : nat) (l : loc) (key : string) (v : value)
    (h : heap) (c : kiwi) : outcome (heap * kiwi) :=
  write on_change fuel l key v h c.

(** [Kiwi.$set(key, value)] for a [key] that is not an object. *)
Definition set_key (fuel : nat) (key : string) (v : value)
    (h : heap) (c : kiwi) : outcome (heap * kiwi) :=
  match k_data c with
  | None => TypeError "Cannot read properties of null"
  | Some l =>
      if is_undefined_at h l key then
        obind (data_write fuel l key v h c)
          (fun '(h1, c1) =>
             match observe fuel h1 (VRef l) with
             | Some h2 => Done (h2, c1)
             | None => Overflow
             end)
      else data_write fuel l key v h c
  end.




(** The constructor of [Kiwi], on a heap that holds the containers the
    initial data refer to. *)
Definition new_kiwi (fuel : nat) (o : options) (h : heap) : outcome (heap * kiwi) :=
  let l := fresh (dom h) in
  let c0 := {| k_events := ∅; k_maxListeners := 10; k_el := element o;
               k_options := Some o; k_data := Some l; k_computed := Some [];
               k_templateEngine := Some new_template; k_timers := [];
               k_next := 0; k_log := [] |} in
  let c1 := run_hook Created [] o c0 in
  (* _setupComputed *)
  let c2 := {| k_events := k_events c1; k_maxListeners := k_maxListeners c1;
               k_el := k_el c1; k_options := k_options c1; k_data := k_data c1;
               k_computed := Some (computed o);
               k_templateEngine := k_templateEngine c1;
               k_timers := k_timers c1; k_next := k_next c1;
               k_log := k_log c1 |} in
  (* _setupReactivity *)
  let h1 := foldl (fun h' '(key, v) => put_slot h' l key (Plain v))
                  (<[l := []]> h) (data o) in
  match observe fuel h1 (VRef l) with
  | None => Overflow
  | Some h2 =>
      (* _setupWatchers *)
      let c3 := kiwi_watch_all (watch o) c2 in
      let c4 := run_hook BeforeMount [] o c3 in
      obind (if truthy (template o) && bool_decide (is_Some (k_el c4))
             then renderTemplate h2 c4 else Done c4)
        (fun c5 => Done (h2, run_hook Mounted [] o c5))
  end.

End Core.

(** ** The rest of the event emitter *)



(** [EventEmitter.listenerCount(event)]. *)
Definition listenerCount (event : string) (c : kiwi) : nat :=
  match k_events c !! event with
  | Some registered => length registered
  | None => 0
  end.

(** ** The rest of the template engine *)

(** The class [[.*+?^${}()|[\]\\]] of [Template.escapeRegExp]. *)
Definition is_special (c : ascii) : bool :=
  bool_decide (nat_of_ascii c ∈ [46; 42; 43; 63; 94; 36; 123; 125; 40; 41; 124; 91; 93; 92]).

(** The escape character of a pattern. *)
Definition backslash : ascii := ascii_of_nat 92.

(** [Template.escapeRegExp(string)]:
    [string.replace(/[.*+?^${}()|[\]\\]/g, '\\$&')]. *)
Fixpoint escapeRegExp (s : string) : string :=
  match s with
  | String c s' =>
      if is_special c then String backslash (String c (escapeRegExp s'))
      else String c (escapeRegExp s')
  | EmptyString => EmptyString
  end.

(** ** Object utilities *)





(** ** String utilities *)

(** The code unit [c] lies between [lo] and [hi]. *)
Definition code_in (lo hi : nat) (c : ascii) : bool :=
  (lo <=? nat_of_ascii c) && (nat_of_ascii c <=? hi).

(** The classes [[a-z]] and [[A-Z]] of the host's regular expressions. *)
Definition is_lower (c : ascii) : bool := code_in 97 122 c.

Definition is_upper (c : ascii) : bool := code_in 65 90 c.

(** The code units that [toLowerCase] changes: [A-Z] and the capital letters
    of the upper half of Latin-1. *)
Definition is_capital (c : ascii) : bool :=
  code_in 65 90 c || code_in 192 214 c || code_in 216 222 c.

(** [toUpperCase] of a letter of [[a-z]]. *)
Definition upper_letter (c : ascii) : ascii := ascii_of_nat (nat_of_ascii c - 32).

(** [toLowerCase] of one code unit. *)
Definition lower_unit (c : ascii) : ascii :=
  if is_capital c then ascii_of_nat (nat_of_ascii c + 32) else c.

(** [String.prototype.toLowerCase] on 8-bit code units. *)
Fixpoint toLowerCase (s : string) : string :=
  match s with
  | String c s' => String (lower_unit c) (toLowerCase s')
  | EmptyString => EmptyString
  end.

(** [utils.camelCase(str)] for a string:
    [str.replace(/-([a-z])/g, g => g[1].toUpperCase())]. *)
Fixpoint camelCase (s : string) : string :=
  match s with
  | String c s' =>
      match s' with
      | String c1 s'' =>
          if bool_decide (c = "-"%char) && is_lower c1
          then String (upper_letter c1) (camelCase s'')
          else String c (camelCase s')
      | EmptyString => String c EmptyString
      end
  | EmptyString => EmptyString
  end.

(** [str.replace(/([a-z])([A-Z])/g, '$1-$2')]: the scan resumes after the
    two code units of a match. *)
Fixpoint hyphenate (s : string) : string :=
  match s with
  | String a s' =>
      match s' with
      | String b s'' =>
          if is_lower a && is_upper b
          then String a (String "-" (String b (hyphenate s'')))
          else String a (hyphenate s')
      | EmptyString => String a EmptyString
      end
  | EmptyString => EmptyString
  end.

(** [utils.kebabCase(str)] for a string. *)
Definition kebabCase (s : string) : string := toLowerCase (hyphenate s).

(** ** The event emitter on its own, with [once] *)

Module Emitter.

(** What an array of [_events] holds: a function that was passed to [on], or
    the [onceCallback] closure that a call of [once] created around its
    [callback] ([id] tells the closures of different calls apart). *)
Inductive registered :=
  | Direct (f : listener)
  | OnceCallback (id : nat) (callback : listener).

Global Instance registered_eq_dec : EqDecision registered.
Proof. solve_decision. Defined.

(** An [EventEmitter]; [next] numbers the closures and [log] records the
    calls of the listeners. *)
Record t := {
  events : gmap string (list registered);
  maxListeners : nat;
  next : nat;
  log : list entry
}.

(** [new EventEmitter()]. *)
Definition create : t :=
  {| events := ∅; maxListeners := 10; next := 0; log := [] |}.

Definition with_events (ev : gmap string (list registered)) (e : t) : t :=
  {| events := ev; maxListeners := maxListeners e; next := next e; log := log e |}.

Definition record (es : list entry) (e : t) : t :=
  {| events := events e; maxListeners := maxListeners e; next := next e;
     log := log e ++ es |}.

(** [EventEmitter.on]. *)
Definition on (event : string) (callback : registered) (e : t) : t :=
  let array := default [] (events e !! event) in
  let e1 :=
    if decide (maxListeners e <= length array) then
      record [MaxListenersWarning event (maxListeners e)] e
    else e in
  with_events (<[event := array ++ [callback]]> (events e1)) e1.

(** [EventEmitter.off]; [callback] is [None] when the argument is omitted. *)
Definition off (event : string) (callback : option registered) (e : t) : t :=
  match events e !! event with
  | None => e
  | Some array =>
      match callback with
      | None => with_events (delete event (events e)) e
      | Some f => with_events (<[event := filter (fun cb => cb <> f) array]> (events e)) e
      end
  end.

(** The function that a registration calls in the end. *)
Definition callback_of (r : registered) : listener :=
  match r with
  | Direct f => f
  | OnceCallback _ callback => callback
  end.

(** [callback.apply(this, args)] for one element of the array: a
    [onceCallback] first removes itself with [this.off(event,
    onceCallback)]. *)
Definition apply (event : string) (args : list value) (r : registered) (e : t) : t :=
  match r with
  | Direct f => record (call_listener args f) e
  | OnceCallback _ callback => record (call_listener args callback) (off event (Some r) e)
  end.

(** [EventEmitter.emit]: [forEach] runs over the array that [_events] held
    when the call began; [off] replaces the array in [_events] and leaves
    that one as it is. *)
Definition emit (event : string) (args : list value) (e : t) : bool * t :=
  match events e !! event with
  | None => (false, e)
  | Some array => (true, foldl (fun e' r => apply event args r e') e array)
  end.

(** [EventEmitter.once]. *)
Definition once (event : string) (callback : listener) (e : t) : t :=
  on event (OnceCallback (next e) callback)
     {| events := events e; maxListeners := maxListeners e; next := S (next e);
        log := log e |}.

(** [EventEmitter.listenerCount]. *)
Definition listenerCount (event : string) (e : t) : nat :=
  match events e !! event with
  | Some array => length array
  | None => 0
  end.

Definition is_direct (r : registered) : bool :=
  match r with
  | Direct _ => true
  | OnceCallback _ _ => false
  end.

(** The array of an event, empty when there is none. *)
Definition array_of (event : string) (e : t) : list registered :=
  default [] (events e !! event).

End Emitter.

(** ** Timers *)

(** The function returned by [utils.throttle(fn, limit)]: its [inThrottle]
    flag, the timers pending that will clear it, and the calls of [fn] so
    far, with their arguments. [fn] is a function of the host that returns
    and does not call the throttled function itself. Time is not
    represented: a timer that is pending fires at some later point. *)
Record throttled := {
  inThrottle : bool;
  resets : nat;
  throttled_calls : list (list value)
}.

(** [utils.throttle(fn, limit)]. *)
Definition throttle : throttled :=
  {| inThrottle := false; resets := 0; throttled_calls := [] |}.

(** A call of the throttled function. *)
Definition call_throttled (args : list value) (s : throttled) : throttled :=
  if inThrottle s then s
  else {| inThrottle := true; resets := S (resets s);
          throttled_calls := throttled_calls s ++ [args] |}.

(** A pending timer of the throttled function fires: [() => inThrottle =
    false]. *)
Definition throttle_timer (s : throttled) : throttled :=
  match resets s with
  | O => s
  | S n => {| inThrottle := false; resets := n; throttled_calls := throttled_calls s |}
  end.

(** The function returned by [utils.debounce(fn, delay)]: the arguments
    captured by the timer that is pending, if any, and the calls of [fn] so
    far. *)
Record debounced := {
  timer : option (list value);
  debounced_calls : list (list value)
}.

(** [utils.debounce(fn, delay)]. *)
Definition debounce : debounced := {| timer := None; debounced_calls := [] |}.

(** A call of the debounced function: [clearTimeout(timer)], then a new
    timer. *)
Definition call_debounced (args : list value) (s : debounced) : debounced :=
  {| timer := Some args; debounced_calls := debounced_calls s |}.

(** The pending timer of the debounced function fires. *)
Definition debounce_timer (s : debounced) : debounced :=
  match timer s with
  | Some args => {| timer := None; debounced_calls := debounced_calls s ++ [args] |}
  | None => s
  end.

(** ** Notions used by the statements *)

(** The container graph below [v] has depth at most [n]: every chain of
    property reads from [v] ends within [n] steps. A graph with a cycle is
    not [acyclic] for any [n]. *)
Fixpoint acyclic (n : nat) (h : heap) (v : value) : bool :=
  match v with
  | VPrim _ => true
  | VRef l =>
      match n with
      | O => false
      | S m => forallb (fun key => acyclic m h (read h l key)) (keys h l)
      end
  end.

(** The container reached from [l] by the property path [path], as in
    [data.user.address]. *)
Fixpoint descend (h : heap) (l : loc) (path : list string) : option loc :=
  match path with
  | [] => Some l
  | key :: path' =>
      match read h l key with
      | VRef l' => descend h l' path'
      | VPrim _ => None
      end
  end.

(** [heap_le h h']: [h'] is [h] with accessors installed on some of its
    properties; names, order and values are the same. *)
Definition slot_le (s s' : slot) : Prop :=
  slot_value s = slot_value s' ∧ (is_tracked s = true → is_tracked s' = true).

Definition obj_le (o o' : object) : Prop :=
  Forall2 (fun p p' : string * slot => p.1 = p'.1 ∧ slot_le p.2 p'.2) o o'.

Definition heap_le (h h' : heap) : Prop :=
  ∀ l, obj_le (obj_at h l) (obj_at h' l).

(** Every property of the container at [l] has its accessor. *)
Definition all_tracked (h : heap) (l : loc) : Prop :=
  ∀ key s, slot_of h l key = Some s → is_tracked s = true.

(** The container at [d] and every container nested in it, at any depth, has
    been instrumented. *)
Definition observed (h : heap) (d : loc) : Prop :=
  ∀ path l, descend h d path = Some l → all_tracked h l.

(** The functions registered for ['dataChange'], in registration order. *)
Definition listeners (c : kiwi) : list listener :=
  default [] (k_events c !! "dataChange").


(** The watcher closures of [c] were numbered below [k_next c]. *)
Definition fresh_ids (c : kiwi) : Prop :=
  ∀ id key callback, Watcher id key callback ∈ listeners c → id < k_next c.

(** Every entry of the cache is a closure made by [compile] for its key. *)
Definition sound (t : Template) : Prop :=
  ∀ source r, cache t !! source = Some r →
    ∃ id, r = Compiled id (tokenize (delimiters t).1 (delimiters t).2 source).

Definition hook_entries (name : hook) (args : list value) (o : options) : list entry :=
  if has_hook name o then [Hooked name args] else [].




Fixpoint all_chars (P : ascii -> bool) (s : string) : bool :=
  match s with
  | EmptyString => true
  | String c s' => P c && all_chars P s'
  end.

(** The template as the specification cuts it: the text between matches,
    before the first and after the last (empty spans included), and the group
    of each match. *)
Inductive span :=
  | Literal (text : string)
  | Interpolation (group : string).

Fixpoint spans (fuel : nat) (d0 d1 s : string) : list span :=
  match fuel with
  | O => []
  | S f =>
      match exec d0 d1 s with
      | Some (skipped, group, rest) =>
          Literal skipped :: Interpolation group :: spans f d0 d1 rest
      | None => [Literal s]
      end
  end.

Section Cycle.

Variable evaluate : heap -> context -> string -> evaluation.




(** Rendering as the specification words it: the literal spans verbatim and,
    for each match, the value of the trimmed group, an [undefined] value or a
    failed evaluation giving the empty string; all concatenated from left to
    right. *)
Definition spec_piece (h : heap) (data : context) (sp : span) : string :=
  match sp with
  | Literal text => text
  | Interpolation group =>
      match evaluate h data (trim group) with
      | Returned v => join_piece v
      | Threw _ => EmptyString
      end
  end.

Fixpoint spec_concat (h : heap) (data : context) (sps : list span) : string :=
  match sps with
  | [] => EmptyString
  | sp :: rest => (spec_piece h data sp ++ spec_concat h data rest)%string
  end.

Definition spec_render (d0 d1 source : string) (h : heap) (data : context) : string :=
  spec_concat h data (spans (S (String.length source)) d0 d1 source).

End Cycle.

(** [s.includes(d)]: the string [d] occurs in [s]. *)
Fixpoint occurs (d s : string) : bool :=
  match strip_prefix d s with
  | Some _ => true
  | None =>
      match s with
      | String _ s' => occurs d s'
      | EmptyString => false
      end
  end.

(** The engine after [compile] was called on each of [sources] in turn. *)
Definition compile_all (sources : list string) (t : Template) : Template :=
  foldl (fun t' source => (compile source t').2) t sources.

(** How the host reads a pattern that is a sequence of ordinary characters
    and escaped special characters: the string it matches, and nothing when
    the pattern has a special character that is not escaped. *)
Fixpoint pattern_literal (p : string) : option string :=
  match p with
  | String c p' =>
      if bool_decide (c = backslash) then
        match p' with
        | String c' p'' =>
            if is_special c' then
              match pattern_literal p'' with
              | Some s => Some (String c' s)
              | None => None
              end
            else None
        | EmptyString => None
        end
      else if is_special c then None
      else
        match pattern_literal p' with
        | Some s => Some (String c s)
        | None => None
        end
  | EmptyString => Some EmptyString
  end.





(** [h2] holds the containers of [h1] outside [old] as they are in [h1]. *)
Definition agree (old : gset loc) (h1 h2 : heap) : Prop :=
  ∀ l, l ∉ old → l ∈ dom h1 → h2 !! l = h1 !! l.



(** A camel-case word: no hyphen, no capital letter outside [[A-Z]], and
    every letter of [[A-Z]] comes right after a letter of [[a-z]]. *)
Fixpoint camel_from (after_lower : bool) (s : string) : bool :=
  match s with
  | EmptyString => true
  | String c s' =>
      (if is_upper c then after_lower
       else negb (bool_decide (c = "-"%char)) && negb (is_capital c))
      && camel_from (is_lower c) s'
  end.

Definition camel_word (s : string) : bool := camel_from false s.

(** The listener table of a component, as an emitter: every function in it
    was registered with [on]. *)
Definition emitter_of (c : kiwi) : Emitter.t :=
  {| Emitter.events := fmap (M := gmap string) (fmap (M := list) Emitter.Direct) (k_events c);
     Emitter.maxListeners := k_maxListeners c;
     Emitter.next := k_next c;
     Emitter.log := k_log c |}.

(** ** Sample programs *)

(** The host's evaluator on the expressions that are a single identifier: the
    value of the property of that name in [data], or the [ReferenceError] of an
    identifier bound nowhere. *)
Definition lookup_evaluate (h : heap) (data : context) (e : string) : evaluation :=
  match ctx_get e data with
  | Some v => Returned v
  | None => Threw (e ++ " is not defined")%string
  end.

(** An observer callback that counts its calls. *)
Definition counting (key : string) (newValue oldValue : value) (h : heap) (n : nat)
    : outcome (heap * nat) := Done (h, S n).


(** [o = {}; o.self = o]. *)
Definition self_reference : heap := {[ 0 := [("self", Plain (VRef 0))] ]}.

(** [new Kiwi({ element, data: { title: 'card', user: { name: 'ann' } },
    watch: { name: f1 }, template: '{{title}}' })]; the user object is at
    location [0] of [nested_heap]. *)
Definition nested_heap : heap :=
  {[ 0 := [("name", Plain (VPrim (PStr "ann")))] ]}.


(** [new Kiwi({ element, data: { a: 0, b: 0 }, watch: { a: f1, b: f2 },
    template: '{{a}},{{b}}' })] and the mapping [{ a: 1, b: 2 }]. *)
Definition counter_options : options :=
  {| element := Some EmptyString;
     data := [("a", VPrim (PNum 0)); ("b", VPrim (PNum 0))];
     computed := [];
     watch := [("a", 1); ("b", 2)];
     template := Some "{{a}},{{b}}";
     hooks := [] |}.






(** [{ title: 'card', user: { name: 'ann' } }] at location [1], the user
    object at location [0]. *)
Definition nested_data : heap :=
  <[1 := [("title", Plain (VPrim (PStr "card"))); ("user", Plain (VRef 0))]]> nested_heap.






(** * Properties *)

(** ** The heap under observation *)

Lemma slot_le_refl s : slot_le s s.
Proof. by split. Qed.

Lemma slot_le_trans s1 s2 s3 : slot_le s1 s2 → slot_le s2 s3 → slot_le s1 s3.
Proof. intros [E1 T1] [E2 T2]. split; [congruence | auto]. Qed.

Lemma obj_le_refl o : obj_le o o.
Proof. induction o; constructor; auto using slot_le_refl. Qed.

Lemma obj_le_trans o1 o2 o3 : obj_le o1 o2 → obj_le o2 o3 → obj_le o1 o3.
Proof.
  intros H12. revert o3. induction H12 as [|p1 p2 o1 o2 [Hk Hs] _ IH]; intros o3 H23.
  - inversion H23. constructor.
  - inversion H23 as [|? p3 ? o3' [Hk' Hs'] Hrest]; subst.
    constructor; [split; [congruence | eauto using slot_le_trans] | by apply IH].
Qed.

Lemma heap_le_refl h : heap_le h h.
Proof. intros l. apply obj_le_refl. Qed.

Lemma heap_le_trans h1 h2 h3 : heap_le h1 h2 → heap_le h2 h3 → heap_le h1 h3.
Proof. intros H12 H23 l. eapply obj_le_trans; eauto. Qed.

Lemma obj_le_get o o' key :
  obj_le o o' →
  match obj_get key o with
  | Some s => ∃ s', obj_get key o' = Some s' ∧ slot_le s s'
  | None => obj_get key o' = None
  end.
Proof.
  induction 1 as [|[k s] [k' s'] o o' [Hk Hs] _ IH]; simpl in *; [done|].
  subst k'. by case_decide; [exists s'|].
Qed.

Lemma obj_le_keys o o' : obj_le o o' → o'.*1 = o.*1.
Proof. induction 1 as [|?? ?? [Hk _] _ IH]; csimpl; [done | by rewrite Hk, IH]. Qed.

Lemma heap_le_keys h h' l : heap_le h h' → keys h' l = keys h l.
Proof. intros H. apply obj_le_keys, H. Qed.

Lemma heap_le_read h h' l key : heap_le h h' → read h' l key = read h l key.
Proof.
  intros H. unfold read, slot_of. pose proof (obj_le_get _ _ key (H l)) as G.
  destruct (obj_get key (obj_at h l)) as [s|].
  - destruct G as (s' & -> & [E _]). done.
  - by rewrite G.
Qed.

Lemma heap_le_tracked h h' l key v :
  heap_le h h' → slot_of h l key = Some (Tracked v) → slot_of h' l key = Some (Tracked v).
Proof.
  intros H E. unfold slot_of in *. pose proof (obj_le_get _ _ key (H l)) as G.
  rewrite E in G. destruct G as (s' & -> & [Ev Et]).
  destruct s'; simpl in *; [by specialize (Et eq_refl) | congruence].
Qed.

Lemma heap_le_slot_none h h' l key :
  heap_le h h' → slot_of h l key = None → slot_of h' l key = None.
Proof.
  intros H E. unfold slot_of in *. pose proof (obj_le_get _ _ key (H l)) as G.
  by rewrite E in G.
Qed.

Lemma obj_at_put_eq h l key s : obj_at (put_slot h l key s) l = obj_set key s (obj_at h l).
Proof. unfold obj_at at 1, put_slot. by rewrite lookup_insert_eq. Qed.

Lemma obj_at_put_ne h l l' key s : l ≠ l' → obj_at (put_slot h l key s) l' = obj_at h l'.
Proof. intros. unfold obj_at, put_slot. by rewrite lookup_insert_ne. Qed.

Lemma obj_get_set_eq key s o : obj_get key (obj_set key s o) = Some s.
Proof.
  induction o as [|[k s0] o IH]; simpl.
  - by rewrite decide_True.
  - case_decide; simpl; [by rewrite decide_True | by rewrite decide_False].
Qed.

Lemma obj_get_set_ne key key' s o : key ≠ key' → obj_get key' (obj_set key s o) = obj_get key' o.
Proof.
  intros Hne. induction o as [|[k s0] o IH]; simpl.
  - by rewrite decide_False.
  - case_decide; simpl; [subst; by rewrite !decide_False | by rewrite IH].
Qed.

Lemma slot_of_put_eq h l key s : slot_of (put_slot h l key s) l key = Some s.
Proof. unfold slot_of. by rewrite obj_at_put_eq, obj_get_set_eq. Qed.

Lemma slot_of_put_ne h l key s l' key' :
  l ≠ l' ∨ key ≠ key' → slot_of (put_slot h l key s) l' key' = slot_of h l' key'.
Proof.
  intros Hne. unfold slot_of. destruct (decide (l = l')) as [<-|].
  - rewrite obj_at_put_eq. apply obj_get_set_ne. by destruct Hne.
  - by rewrite obj_at_put_ne.
Qed.

Lemma read_put_eq h l key s : read (put_slot h l key s) l key = slot_value s.
Proof. unfold read. by rewrite slot_of_put_eq. Qed.


Lemma obj_le_set o key s s0 :
  obj_get key o = Some s0 → slot_le s0 s → obj_le o (obj_set key s o).
Proof.
  intros Hget Hle. induction o as [|[k s1] o IH]; simpl in *; [done|].
  case_decide.
  - simplify_eq. constructor; [done | apply obj_le_refl].
  - constructor; [split; [done | apply slot_le_refl] | by apply IH].
Qed.

Lemma heap_le_put h l key s s0 :
  slot_of h l key = Some s0 → slot_le s0 s → heap_le h (put_slot h l key s).
Proof.
  intros Hget Hle l'. destruct (decide (l = l')) as [<-|].
  - rewrite obj_at_put_eq. eapply obj_le_set; eauto.
  - rewrite obj_at_put_ne by done. apply obj_le_refl.
Qed.



Lemma elem_of_keys h l key : key ∈ keys h l ↔ is_Some (slot_of h l key).
Proof.
  unfold keys, slot_of. induction (obj_at h l) as [|[k s] o IH]; simpl.
  - split; [by intros ?%elem_of_nil | by intros [? ?]].
  - rewrite elem_of_cons. case_decide as Hk.
    + split; [eauto | intros _; by left].
    + rewrite IH. split; [intros [?|?]; [congruence | done] | by right].
Qed.

Lemma all_tracked_le h h' l : heap_le h h' → all_tracked h l → all_tracked h' l.
Proof.
  intros Hle Hall key s' Hs'. unfold slot_of in *.
  pose proof (obj_le_get _ _ key (Hle l)) as G.
  destruct (obj_get key (obj_at h l)) as [s|] eqn:Hs; [|congruence].
  destruct G as (s'' & Hs'' & [_ Ht]). simplify_eq. eauto.
Qed.

Lemma all_tracked_put h l key v s : all_tracked h s → all_tracked (put_slot h l key (Tracked v)) s.
Proof.
  intros Hall k sl Hsl. destruct (decide (l = s ∧ key = k)) as [[<- <-]|Hne].
  - rewrite slot_of_put_eq in Hsl. by simplify_eq.
  - rewrite slot_of_put_ne in Hsl; [by eapply Hall|].
    apply not_and_l in Hne. destruct Hne; [by left | by right].
Qed.

Lemma descend_le h h' l path : heap_le h h' → descend h' l path = descend h l path.
Proof.
  intros Hle. revert l. induction path as [|key path IH]; intros l; simpl; [done|].
  rewrite (heap_le_read _ _ _ _ Hle). destruct (read h l key); auto.
Qed.

Lemma acyclic_prim n h (p : prim) : acyclic n h p = true.
Proof. by destruct n. Qed.

Lemma acyclic_le n h h' v : heap_le h h' → acyclic n h' v = acyclic n h v.
Proof.
  intros H. revert v. induction n as [|n IH]; intros [p|l]; simpl; try done.
  rewrite (heap_le_keys _ _ _ H).
  induction (keys h l) as [|key ks IHks]; simpl; [done|].
  by rewrite IH, (heap_le_read _ _ _ _ H), IHks.
Qed.



(** ** Observer *)

Lemma observe_keys_le rec l ks h h' :
  (∀ h0 v h1, rec h0 v = Some h1 → heap_le h0 h1) →
  Forall (fun key => key ∈ keys h l) ks →
  observe_keys rec l ks h = Some h' →
  heap_le h h' ∧ Forall (fun key => ∃ v, slot_of h' l key = Some (Tracked v)) ks.
Proof.
  intros Hrec. revert h. induction ks as [|key ks IH]; intros h Hin Hrun; simpl in Hrun.
  - simplify_eq. split; [apply heap_le_refl | constructor].
  - apply Forall_cons in Hin as [Hkey Hin].
    destruct (if isObject (read h l key) then rec h (read h l key) else Some h)
      as [h1|] eqn:Hstep; [|done].
    assert (heap_le h h1) as Hle1.
    { destruct (isObject (read h l key)); [eauto | simplify_eq; apply heap_le_refl]. }
    assert (heap_le h1 (put_slot h1 l key (Tracked (read h l key)))) as Hle2.
    { apply elem_of_keys in Hkey as [s Hs].
      pose proof (obj_le_get _ _ key (Hle1 l)) as G. unfold slot_of in Hs.
      rewrite Hs in G. destruct G as (s' & Hs' & [Ev _]).
      eapply heap_le_put; [exact Hs'|]. unfold read, slot_of. rewrite Hs. by split. }
    assert (heap_le h (put_slot h1 l key (Tracked (read h l key)))) as Hle
      by eauto using heap_le_trans.
    assert (Forall (fun k => k ∈ keys (put_slot h1 l key (Tracked (read h l key))) l) ks)
      as Hin'.
    { eapply Forall_impl; [exact Hin|]. intros k Hk. simpl in Hk.
      by rewrite (heap_le_keys _ _ _ Hle). }
    destruct (IH _ Hin' Hrun) as [Hle' Htr].
    split; [eauto using heap_le_trans|].
    constructor; [|done]. exists (read h l key).
    eapply heap_le_tracked; [exact Hle'|]. apply slot_of_put_eq.
Qed.

Lemma observe_le fuel h v h' : observe fuel h v = Some h' → heap_le h h'.
Proof.
  revert h v h'. induction fuel as [|fuel IH]; intros h [p|l] h' Hrun; simpl in Hrun;
    simplify_eq; try apply heap_le_refl.
  eapply observe_keys_le; [exact IH| |exact Hrun].
  by apply Forall_forall.
Qed.

Lemma observe_keys_tracked fuel l h h' :
  observe_keys (observe fuel) l (keys h l) h = Some h' →
  ∀ key s, slot_of h' l key = Some s → is_tracked s = true.
Proof.
  intros Hrun key s Hs.
  destruct (observe_keys_le (observe fuel) l (keys h l) h h') as [Hle Htr];
    [apply observe_le | by apply Forall_forall | done |].
  rewrite Forall_forall in Htr. destruct (Htr key) as [v Hv].
  - rewrite <- (heap_le_keys _ _ _ Hle). apply elem_of_keys. eauto.
  - rewrite Hv in Hs. by simplify_eq.
Qed.

Lemma observe_keys_children rec l ks h h' :
  (∀ h0 v h1, rec h0 v = Some h1 → heap_le h0 h1) →
  Forall (fun key => key ∈ keys h l) ks →
  observe_keys rec l ks h = Some h' →
  Forall (fun key => ∀ c, read h l key = VRef c →
            ∃ ha hb, heap_le h ha ∧ rec ha (VRef c) = Some hb ∧ heap_le hb h') ks.
Proof.
  intros Hrec. revert h. induction ks as [|key ks IH]; intros h Hin Hrun; [constructor|].
  pose proof (observe_keys_le _ _ _ _ _ Hrec Hin Hrun) as [Hall _].
  simpl in Hrun. apply Forall_cons in Hin as [Hkey Hin].
  destruct (if isObject (read h l key) then rec h (read h l key) else Some h)
    as [h1|] eqn:Hstep; [|done].
  assert (heap_le h h1) as Hle1.
  { destruct (isObject (read h l key)); [eauto | simplify_eq; apply heap_le_refl]. }
  assert (heap_le h1 (put_slot h1 l key (Tracked (read h l key)))) as Hle2.
  { apply elem_of_keys in Hkey as [s Hs].
    pose proof (obj_le_get _ _ key (Hle1 l)) as G. unfold slot_of in Hs.
    rewrite Hs in G. destruct G as (s' & Hs' & [Ev _]).
    eapply heap_le_put; [exact Hs'|]. unfold read, slot_of. rewrite Hs. by split. }
  assert (heap_le h (put_slot h1 l key (Tracked (read h l key)))) as Hle
    by eauto using heap_le_trans.
  assert (Forall (fun k => k ∈ keys (put_slot h1 l key (Tracked (read h l key))) l) ks)
    as Hin'.
  { eapply Forall_impl; [exact Hin|]. intros k Hk. simpl in Hk.
    by rewrite (heap_le_keys _ _ _ Hle). }
  pose proof (observe_keys_le _ _ _ _ _ Hrec Hin' Hrun) as [Hrest _].
  constructor.
  - intros c Hc. rewrite Hc in Hstep. simpl in Hstep.
    exists h, h1. split; [apply heap_le_refl|]. split; [done|].
    eauto using heap_le_trans.
  - specialize (IH _ Hin' Hrun). eapply Forall_impl; [exact IH|].
    intros k Hk c Hc. simpl in Hk.
    destruct (Hk c) as (ha & hb & Ha & Hab & Hb).
    { by rewrite (heap_le_read _ _ _ _ Hle). }
    exists ha, hb. eauto using heap_le_trans.
Qed.

(** After [observe], every container below the observed one is instrumented. *)
Lemma observe_reaches fuel h d h' :
  observe fuel h (VRef d) = Some h' →
  ∀ path l, descend h d path = Some l → all_tracked h' l.
Proof.
  revert h d h'. induction fuel as [|fuel IH]; intros h d h' Hrun path l Hpath;
    simpl in Hrun; [done|].
  destruct path as [|key path]; simpl in Hpath.
  - simplify_eq. intros key s. by apply (observe_keys_tracked fuel l h h').
  - destruct (read h d key) as [p|c] eqn:Hread; [done|].
    assert (key ∈ keys h d) as Hkey.
    { apply elem_of_keys. unfold read in Hread.
      destruct (slot_of h d key); [eauto | done]. }
    assert (Forall (fun k => k ∈ keys h d) (keys h d)) as Hall by by apply Forall_forall.
    pose proof (observe_keys_children (observe fuel) d (keys h d) h h'
                  (observe_le fuel) Hall Hrun) as Hch.
    rewrite Forall_forall in Hch.
    destruct (Hch key Hkey c Hread) as (ha & hb & Ha & Hab & Hb).
    eapply all_tracked_le; [exact Hb|].
    eapply (IH ha c hb Hab path). by rewrite (descend_le _ _ _ _ Ha).
Qed.

Lemma observe_observed fuel h d h' : observe fuel h (VRef d) = Some h' → observed h' d.
Proof.
  intros Hrun path l Hpath. eapply observe_reaches; [exact Hrun|].
  by rewrite <- (descend_le _ _ _ _ (observe_le _ _ _ _ Hrun)).
Qed.

Lemma observe_keys_total n l (h0 : heap) ks h :
  (∀ h1 v, acyclic n h1 v = true → is_Some (observe n h1 v)) →
  heap_le h0 h →
  Forall (fun key => key ∈ keys h0 l ∧ acyclic n h0 (read h0 l key) = true) ks →
  is_Some (observe_keys (observe n) l ks h).
Proof.
  intros Hn. revert h. induction ks as [|key ks IH]; intros h Hle Hks; simpl; [eauto|].
  apply Forall_cons in Hks as [[Hkey Hac] Hks].
  assert (is_Some (if isObject (read h l key) then observe n h (read h l key) else Some h))
    as [h1 Hh1].
  { destruct (isObject (read h l key)); [|eauto]. apply Hn.
    by rewrite (acyclic_le _ _ _ _ Hle), (heap_le_read _ _ _ _ Hle). }
  rewrite Hh1. apply IH; [|done].
  assert (heap_le h h1) as Hle1.
  { destruct (isObject (read h l key)); [by eapply observe_le | simplify_eq; apply heap_le_refl]. }
  eapply heap_le_trans; [exact Hle|]. eapply heap_le_trans; [exact Hle1|].
  assert (key ∈ keys h1 l) as [s Hs]%elem_of_keys.
  { rewrite (heap_le_keys _ _ _ Hle1), (heap_le_keys _ _ _ Hle). done. }
  eapply heap_le_put; [exact Hs|]. split; [|done]. simpl.
  rewrite <- (heap_le_read _ _ _ _ Hle1). unfold read. by rewrite Hs.
Qed.

(** [Observer.observe] returns on every acyclic graph, and only on those. *)
Lemma observe_total n h v : acyclic n h v = true → is_Some (observe n h v).
Proof.
  revert h v. induction n as [|n IH]; intros h [p|l] Hac; simpl in *; eauto; [done|].
  eapply observe_keys_total; [exact IH | apply heap_le_refl |].
  rewrite forallb_forall in Hac. apply Forall_forall. intros key Hkey.
  split; [done|]. apply Hac. by apply list_elem_of_In.
Qed.

Lemma observe_acyclic n h v h' : observe n h v = Some h' → acyclic n h v = true.
Proof.
  revert h v h'. induction n as [|n IH]; intros h [p|l] h' Hrun; simpl in *; try done.
  assert (Forall (fun k => k ∈ keys h l) (keys h l)) as Hall by by apply Forall_forall.
  pose proof (observe_keys_children (observe n) l (keys h l) h h' (observe_le n) Hall Hrun)
    as Hch.
  rewrite Forall_forall in Hch. apply forallb_forall. intros key Hkey%list_elem_of_In.
  destruct (read h l key) as [p|c] eqn:Hread; [apply acyclic_prim|].
  destruct (Hch key Hkey c Hread) as (ha & hb & Ha & Hab & _).
  rewrite <- (acyclic_le _ _ _ _ Ha). by eapply IH.
Qed.

(** On a container that refers to itself the recursion never returns. *)
Lemma observe_self_reference fuel : observe fuel self_reference (VRef 0) = None.
Proof.
  induction fuel as [|fuel IH]; [done|].
  change (observe_keys (observe fuel) 0 ["self"] self_reference = None).
  cbn [observe_keys]. change (read self_reference 0 "self") with (VRef 0).
  cbn [isObject]. by rewrite IH.
Qed.

Lemma setter_distinct fuel h l key cell v :
  v ≠ cell →
  acyclic fuel (put_slot h l key (Tracked v)) v = true →
  ∃ h2, setter fuel h l key cell v = Some (h2, Some (key, v, cell))
        ∧ heap_le (put_slot h l key (Tracked v)) h2
        ∧ slot_of h2 l key = Some (Tracked v)
        ∧ ∀ c path l', v = VRef c → descend h2 c path = Some l' → all_tracked h2 l'.
Proof.
  intros Hne Hac. unfold setter, strict_eq.
  rewrite bool_decide_eq_false_2 by congruence.
  destruct v as [p|c]; simpl.
  - eexists. split; [done|]. split; [apply heap_le_refl|].
    split; [apply slot_of_put_eq | done].
  - destruct (observe_total _ _ _ Hac) as [h2 Hh2]. rewrite Hh2.
    pose proof (observe_le _ _ _ _ Hh2) as Hle.
    exists h2. split; [done|]. split; [done|]. split.
    + eapply heap_le_tracked; [exact Hle | apply slot_of_put_eq].
    + intros c' path l' [= <-] Hpath. eapply observe_reaches; [exact Hh2|].
      by rewrite <- (descend_le _ _ _ _ Hle).
Qed.

(** A write through an accessor keeps the data instrumented. *)
Lemma setter_observed fuel h l key cell v h2 n d :
  observed h d →
  setter fuel h l key cell v = Some (h2, n) →
  observed h2 d.
Proof.
  intros Hobs Hset. unfold setter in Hset.
  destruct (strict_eq cell v); [by simplify_eq|].
  set (h1 := put_slot h l key (Tracked v)) in *.
  destruct (if isObject v then observe fuel h1 v else Some h1) as [h2'|] eqn:Hrun; [|done].
  simplify_eq.
  assert (heap_le h1 h2) as Hle.
  { destruct v; simpl in Hrun; [simplify_eq; apply heap_le_refl | by eapply observe_le]. }
  assert (∀ c path l', v = VRef c → descend h1 c path = Some l' → all_tracked h2 l') as Hnew.
  { intros c path l' -> Hpath. simpl in Hrun. by eapply observe_reaches. }
  intros path l' Hpath. rewrite (descend_le _ _ _ _ Hle) in Hpath.
  assert (∀ p l'', descend h d p = Some l'' → all_tracked h l'') as Hfrom by exact Hobs.
  clear Hobs. revert Hpath Hfrom. generalize d as s.
  induction path as [|k0 path IH]; intros s Hpath Hfrom; simpl in Hpath.
  - simplify_eq. eapply all_tracked_le; [exact Hle|]. apply all_tracked_put.
    by apply (Hfrom []).
  - destruct (read h1 s k0) as [p|s'] eqn:Hread; [done|].
    destruct (decide (l = s ∧ key = k0)) as [[<- <-]|Hne].
    + unfold h1 in Hread. rewrite read_put_eq in Hread. simpl in Hread.
      by eapply Hnew.
    + apply (IH s' Hpath). intros p l'' Hp. apply (Hfrom (k0 :: p)). simpl.
      unfold read in Hread. unfold h1 in Hread. rewrite slot_of_put_ne in Hread.
      * unfold read. destruct (slot_of h s k0); [|done]. by rewrite Hread.
      * apply not_and_l in Hne. destruct Hne; [by left | by right].
Qed.

Lemma write_same {W : Type}
    (callback : string -> value -> value -> heap -> W -> outcome (heap * W))
    (fuel : nat) (l : loc) (key : string) (cell : value) (h : heap) (w : W) :
  slot_of h l key = Some (Tracked cell) →
  write callback fuel l key cell h w = Done (h, w).
Proof.
  intros Hslot. unfold write, assign, setter, strict_eq. rewrite Hslot.
  by rewrite bool_decide_eq_true_2.
Qed.

Lemma write_distinct {W : Type}
    (callback : string -> value -> value -> heap -> W -> outcome (heap * W))
    (fuel : nat) (l : loc) (key : string) (cell v : value) (h : heap) (w : W) :
  slot_of h l key = Some (Tracked cell) →
  v ≠ cell →
  acyclic fuel (put_slot h l key (Tracked v)) v = true →
  ∃ h2, assign fuel h l key v = Some (h2, Some (key, v, cell))
        ∧ write callback fuel l key v h w = callback key v cell h2 w
        ∧ heap_le (put_slot h l key (Tracked v)) h2
        ∧ slot_of h2 l key = Some (Tracked v)
        ∧ (∀ c path l', v = VRef c → descend h2 c path = Some l' → all_tracked h2 l').
Proof.
  intros Hslot Hne Hac.
  destruct (setter_distinct fuel h l key cell v Hne Hac) as (h2 & Hset & Hle & Hs2 & Hobs).
  exists h2. unfold write, assign. by rewrite Hslot, Hset.
Qed.

(** Two writes of the same value in a row reach a counting callback at most
    once. *)
Lemma write_twice_counts fuel l key cell v h n :
  slot_of h l key = Some (Tracked cell) →
  v = cell ∨ acyclic fuel (put_slot h l key (Tracked v)) v = true →
  ∃ h1 m,
    write counting fuel l key v h n = Done (h1, m)
    ∧ write counting fuel l key v h1 m = Done (h1, m)
    ∧ m = if decide (v = cell) then n else S n.
Proof.
  intros Hslot Hcase. destruct (decide (v = cell)) as [->|Hne].
  - exists h, n. by rewrite !write_same.
  - destruct Hcase as [?|Hac]; [done|].
    destruct (write_distinct counting fuel l key cell v h n Hslot Hne Hac)
      as (h2 & _ & Hw & _ & Hs2 & _).
    exists h2, (S n). split; [done|]. split; [|done]. by apply write_same.
Qed.



(** ** Template engine *)

Lemma append_assoc (a b c : string) : ((a ++ b) ++ c = a ++ (b ++ c))%string.
Proof.
  induction a as [|ch a IH]; [done|].
  change (String ch ((a ++ b) ++ c) = String ch (a ++ (b ++ c)))%string. by rewrite IH.
Qed.

Lemma append_nil_r (s : string) : (s ++ "")%string = s.
Proof.
  induction s as [|ch s IH]; [done|].
  change (String ch (s ++ "") = String ch s)%string. by rewrite IH.
Qed.

Lemma length_append (a b : string) :
  String.length (a ++ b) = String.length a + String.length b.
Proof.
  induction a as [|ch a IH]; [done|].
  change (S (String.length (a ++ b)) = S (String.length a + String.length b)).
  by rewrite IH.
Qed.

Lemma strip_prefix_Some p s rest : strip_prefix p s = Some rest → s = (p ++ rest)%string.
Proof.
  revert s. induction p as [|a p IH]; intros s H; simpl in H.
  - by simplify_eq.
  - destruct s as [|b s]; [done|]. case_decide; [|done]. subst b.
    change (String a s = String a (p ++ rest))%string. f_equal. by apply IH.
Qed.

Lemma ws_star_Some {R} (k : string -> option R) s r :
  ws_star k s = Some r →
  ∃ ws s', s = (ws ++ s')%string ∧ all_chars is_space ws = true ∧ k s' = Some r.
Proof.
  revert r. induction s as [|c s IH]; intros r H; simpl in H.
  - exists EmptyString, EmptyString. done.
  - destruct (is_space c) eqn:Hc.
    + destruct (ws_star k s) as [r'|] eqn:Hrec.
      * simplify_eq. destruct (IH r eq_refl) as (ws & s' & -> & Hws & Hk).
        exists (String c ws), s'. split; [done|]. split; [|done]. simpl. by rewrite Hc.
      * exists EmptyString, (String c s). done.
    + exists EmptyString, (String c s). done.
Qed.

Lemma dot_plus_lazy_Some {R} (k : string -> string -> option R) acc s r :
  dot_plus_lazy k acc s = Some r →
  ∃ g s', g ≠ EmptyString ∧ s = (g ++ s')%string
          ∧ all_chars (fun c => negb (is_line_terminator c)) g = true
          ∧ k (acc ++ g)%string s' = Some r.
Proof.
  revert acc r. induction s as [|c s IH]; intros acc r H; simpl in H; [done|].
  destruct (is_line_terminator c) eqn:Hc; [done|].
  destruct (k (acc ++ String c "")%string s) as [r'|] eqn:Hk.
  - simplify_eq. exists (String c EmptyString), s. split; [done|]. split; [done|].
    split; [|done]. simpl. by rewrite Hc.
  - destruct (IH _ _ H) as (g & s' & Hg & -> & Hall & Hk').
    exists (String c g), s'. split; [done|]. split; [done|]. split.
    + simpl. by rewrite Hc.
    + rewrite append_assoc in Hk'. exact Hk'.
Qed.

(** A match is the opening delimiter, white space, a non-empty group without
    line terminators, white space and the closing delimiter. *)
Lemma match_here_Some d0 d1 s group rest :
  match_here d0 d1 s = Some (group, rest) →
  ∃ ws1 ws2,
    s = (d0 ++ ws1 ++ group ++ ws2 ++ d1 ++ rest)%string
    ∧ group ≠ EmptyString
    ∧ all_chars is_space ws1 = true
    ∧ all_chars is_space ws2 = true
    ∧ all_chars (fun c => negb (is_line_terminator c)) group = true.
Proof.
  unfold match_here. intros H.
  destruct (strip_prefix d0 s) as [s0|] eqn:H0; [|done].
  apply strip_prefix_Some in H0 as ->.
  apply ws_star_Some in H as (ws1 & s1 & -> & Hws1 & H).
  apply dot_plus_lazy_Some in H as (g & s2 & Hg & -> & Hall & H).
  apply ws_star_Some in H as (ws2 & s3 & -> & Hws2 & H).
  destruct (strip_prefix d1 s3) as [rest'|] eqn:H1; [|done].
  apply strip_prefix_Some in H1 as ->. simplify_eq.
  exists ws1, ws2. done.
Qed.

Lemma exec_Some d0 d1 s skipped group rest :
  exec d0 d1 s = Some (skipped, group, rest) →
  ∃ matched, s = (skipped ++ matched ++ rest)%string
             ∧ match_here d0 d1 (matched ++ rest)%string = Some (group, rest)
             ∧ matched ≠ EmptyString.
Proof.
  revert skipped. induction s as [|c s IH]; intros skipped H; simpl in H.
  - destruct (match_here d0 d1 "") as [[g r]|] eqn:Hm; [|done]. simplify_eq.
    apply match_here_Some in Hm as (ws1 & ws2 & Hs & Hg & _).
    destruct d0, ws1, group; done.
  - destruct (match_here d0 d1 (String c s)) as [[g r]|] eqn:Hm.
    + simplify_eq. pose proof Hm as (ws1 & ws2 & Hs & Hg & _)%match_here_Some.
      exists (d0 ++ ws1 ++ group ++ ws2 ++ d1)%string.
      assert (String c s = ((d0 ++ ws1 ++ group ++ ws2 ++ d1) ++ rest)%string) as Heq.
      { rewrite Hs. by rewrite !append_assoc. }
      split; [done|]. split; [by rewrite <- Heq|].
      destruct d0, ws1, group; done.
    + destruct (exec d0 d1 s) as [[[sk g] r]|] eqn:He; [|done]. simplify_eq.
      destruct (IH _ eq_refl) as (matched & -> & Hm' & Hne).
      by exists matched.
Qed.

Lemma exec_shorter d0 d1 s skipped group rest :
  exec d0 d1 s = Some (skipped, group, rest) → String.length rest < String.length s.
Proof.
  intros (matched & -> & _ & Hne)%exec_Some. rewrite !length_append.
  destruct matched; [done|]. simpl. lia.
Qed.

(** The bound on the number of iterations is never reached. *)
Lemma scan_fuel d0 d1 fuel fuel' s :
  String.length s < fuel → String.length s < fuel' →
  scan fuel d0 d1 s = scan fuel' d0 d1 s.
Proof.
  revert fuel' s. induction fuel as [|fuel IH]; intros fuel' s Hf Hf'; [lia|].
  destruct fuel' as [|fuel']; [lia|]. simpl.
  destruct (exec d0 d1 s) as [[[skipped group] rest]|] eqn:He; [|done].
  apply exec_shorter in He. f_equal. f_equal. apply IH; lia.
Qed.

Lemma tokenize_unfold d0 d1 s :
  tokenize d0 d1 s =
    match exec d0 d1 s with
    | Some (skipped, group, rest) =>
        text_token skipped ++ Expression (trim group) :: tokenize d0 d1 rest
    | None => text_token s
    end.
Proof.
  unfold tokenize at 1. cbn [scan].
  destruct (exec d0 d1 s) as [[[skipped group] rest]|] eqn:He; [|done].
  apply exec_shorter in He. f_equal. f_equal. unfold tokenize. apply scan_fuel; lia.
Qed.

Lemma sound_new_template : sound new_template.
Proof. intros source r. simpl. by rewrite lookup_empty. Qed.


Lemma compile_plain source t :
  sound t → source ∉ object_prototype →
  ∃ id, (compile source t).1 = Compiled id (tokenize (delimiters t).1 (delimiters t).2 source).
Proof.
  intros Ht Hplain. unfold compile, cache_get.
  destruct (cache t !! source) as [r|] eqn:Hr.
  - destruct (Ht _ _ Hr) as [id ->]. simpl. eauto.
  - rewrite bool_decide_eq_false_2 by done. simpl. eauto.
Qed.

Lemma not_inherited source :
  bool_decide (source ∈ object_prototype) = false → source ∉ object_prototype.
Proof. by intros ?%bool_decide_eq_false. Qed.

(** C4. A second [compile] of the same string returns what the first call
    returned and leaves the engine, its tokenizer count included, as the first
    call left it; the first call ran the tokenizer exactly when the lookup of
    the string in the cache found nothing. *)
Theorem compile_twice_returns_cached (source : string) (t : Template) :
  let r1 := (compile source t).1 in
  let t1 := (compile source t).2 in
  compile source t1 = (r1, t1)
  ∧ cache_get t1 source = Some r1
  ∧ scans t1 = match cache_get t source with
               | Some _ => scans t
               | None => S (scans t)
               end
  ∧ r1 = match cache_get t source with
         | Some r => r
         | None => Compiled (scans t) (tokenize (delimiters t).1 (delimiters t).2 source)
         end.
Proof.
  unfold compile. destruct (cache_get t source) as [r|] eqn:Hget; simpl.
  - by rewrite Hget.
  - assert (cache_get
              {| delimiters := delimiters t;
                 cache := <[source:=Compiled (scans t)
                              (tokenize (delimiters t).1 (delimiters t).2 source)]> (cache t);
                 scans := S (scans t) |} source
            = Some (Compiled (scans t) (tokenize (delimiters t).1 (delimiters t).2 source)))
      as Hhit.
    { unfold cache_get. simpl. by rewrite lookup_insert_eq. }
    by rewrite Hhit.
Qed.

Lemma map_tokens_app evaluate h data tokens tokens' :
  map_tokens evaluate h data (tokens ++ tokens')
  = ((map_tokens evaluate h data tokens).1 ++ (map_tokens evaluate h data tokens').1,
     (map_tokens evaluate h data tokens).2 ++ (map_tokens evaluate h data tokens').2).
Proof.
  induction tokens as [|tok tokens IH]; simpl.
  - by destruct (map_tokens evaluate h data tokens').
  - rewrite IH. destruct (render_token evaluate h data tok) as [piece errs].
    destruct (map_tokens evaluate h data tokens) as [pieces errs1].
    destruct (map_tokens evaluate h data tokens') as [pieces' errs2]. simpl.
    by rewrite app_assoc.
Qed.

Lemma join_app pieces pieces' : join (pieces ++ pieces') = (join pieces ++ join pieces')%string.
Proof.
  induction pieces as [|piece pieces IH]; simpl; [done|].
  by rewrite IH, append_assoc.
Qed.

Lemma join_text evaluate h data s :
  join (map_tokens evaluate h data (text_token s)).1 = s.
Proof. destruct s; [done|]. simpl. by rewrite append_nil_r. Qed.

Lemma join_piece_returned v :
  join_piece (if strict_eq v undefined then VPrim (PStr "") else v) = join_piece v.
Proof. unfold strict_eq. case_bool_decide; by subst. Qed.



Lemma scan_spans evaluate h data d0 d1 fuel s :
  join (map_tokens evaluate h data (scan fuel d0 d1 s)).1
  = spec_concat evaluate h data (spans fuel d0 d1 s).
Proof.
  revert s. induction fuel as [|fuel IH]; intros s; [done|]. cbn [scan spans].
  destruct (exec d0 d1 s) as [[[skipped group] rest]|].
  - rewrite map_tokens_app. cbn [fst]. rewrite join_app, join_text.
    cbn [spec_concat spec_piece map_tokens render_token]. rewrite <- IH.
    destruct (evaluate h data (trim group)) as [v|message];
      destruct (map_tokens evaluate h data (scan fuel d0 d1 rest)) as [pieces errs];
      cbn [fst join]; [by rewrite join_piece_returned | done].
  - rewrite join_text. cbn [spec_concat spec_piece]. by rewrite append_nil_r.
Qed.

Lemma render_plain evaluate source data h t :
  sound t → source ∉ object_prototype →
  (render evaluate source data h t).1
  = Done (Markup (join (map_tokens evaluate h data
                          (tokenize (delimiters t).1 (delimiters t).2 source)).1),
          (map_tokens evaluate h data
             (tokenize (delimiters t).1 (delimiters t).2 source)).2).
Proof.
  intros Hs Hplain. unfold render.
  destruct (compile_plain source t Hs Hplain) as [id Hid].
  destruct (compile source t) as [r t']. simpl in *. subst r. simpl.
  by destruct (map_tokens _ _ _ _).
Qed.

(** For every template that is not the name of a member of
    [Object.prototype], the code renders what the specification describes. *)
Lemma render_plain_concatenates evaluate source data h t :
  sound t → source ∉ object_prototype →
  ∃ errs, (render evaluate source data h t).1
          = Done (Markup (spec_render evaluate (delimiters t).1 (delimiters t).2
                            source h data), errs).
Proof.
  intros Hs Hplain. eexists. rewrite render_plain by done.
  unfold tokenize, spec_render. by rewrite scan_spans.
Qed.

(** C6, at the template ["toString"]: it has no delimiter, so its only token
    is the text itself, but the lookup in the cache finds the function
    inherited from [Object.prototype], and [render] returns what that function
    answers for [undefined]. *)
Theorem inherited_name_is_not_rendered
    (evaluate : heap -> context -> string -> evaluation) (h : heap) (data : context) :
  tokenize "{{" "}}" "toString" = [Text "toString"]
  ∧ compile "toString" new_template = (Inherited "toString", new_template)
  ∧ (render evaluate "toString" data h new_template).1
    = Done (Markup "[object Undefined]", [])
  ∧ (render evaluate "toString" data h new_template).1
    ≠ Done (Markup (join (map_tokens evaluate h data (tokenize "{{" "}}" "toString")).1), []).
Proof. split; [reflexivity|]. split; [reflexivity|]. split; [reflexivity|]. discriminate. Qed.

(** ** Watchers *)

Lemma listeners_on w c : listeners (on "dataChange" w c) = listeners c ++ [w].
Proof.
  unfold on, listeners. case_decide; simpl; by rewrite lookup_insert_eq.
Qed.

Lemma listeners_unwatch w c :
  listeners (unwatch w c) = filter (fun f => f ≠ w) (listeners c).
Proof.
  unfold unwatch, off, listeners. destruct (k_events c !! "dataChange") as [ls|] eqn:Hev.
  - simpl. by rewrite lookup_insert_eq.
  - by rewrite Hev.
Qed.

Lemma filter_all {A} (P : A → Prop) `{!∀ x, Decision (P x)} (l : list A) :
  Forall P l → filter P l = l.
Proof.
  induction 1 as [|x l Hx _ IH]; [done|]. by rewrite filter_cons_True, IH.
Qed.





Lemma fresh_ids_watch key callback c : fresh_ids c → fresh_ids (kiwi_watch key callback c).2.
Proof.
  intros Hfresh id k cb. unfold kiwi_watch. cbn [snd]. rewrite listeners_on.
  assert (k_next (on "dataChange" (Watcher (k_next c) key callback)
                    (with_next (S (k_next c)) c)) = S (k_next c)) as ->.
  { unfold on. by case_decide. }
  intros [Hin|Hin%list_elem_of_singleton]%elem_of_app.
  - apply Hfresh in Hin. lia.
  - simplify_eq. lia.
Qed.

Lemma fresh_ids_unwatch w c : fresh_ids c → fresh_ids (unwatch w c).
Proof.
  intros Hfresh id k cb. rewrite listeners_unwatch.
  intros [_ Hin]%list_elem_of_filter.
  assert (k_next (unwatch w c) = k_next c) as ->; [|by eapply Hfresh].
  unfold unwatch, off. by destruct (k_events c !! "dataChange").
Qed.

(** ** Component *)

Lemma record_nil c : record [] c = c.
Proof. unfold record, with_log. rewrite app_nil_r. by destruct c. Qed.


Lemma run_hook_record name args o c :
  run_hook name args o c = record (hook_entries name args o) c.
Proof. unfold run_hook, hook_entries. destruct (has_hook name o); [done | by rewrite record_nil]. Qed.













Lemma on_change_heap evaluate key newValue oldValue h c h' c' :
  on_change evaluate key newValue oldValue h c = Done (h', c') → h' = h.
Proof.
  unfold on_change.
  destruct (k_options (emit "dataChange" (change_args key newValue oldValue) c).2)
    as [o|]; [|done].
  match goal with |- obind ?m _ = _ → _ => destruct m as [c3| |] end; simpl; [|done..].
  by intros [= <- _].
Qed.

(** Writes through an accessor and [$set] keep the data instrumented. *)
Lemma data_write_observed evaluate fuel l key v h c h2 c2 d s :
  observed h d →
  slot_of h l key = Some s → is_tracked s = true →
  data_write evaluate fuel l key v h c = Done (h2, c2) →
  observed h2 d.
Proof.
  intros Hobs Hs Ht. unfold data_write, write, assign. rewrite Hs.
  destruct s as [?|cell]; [done|].
  destruct (setter fuel h l key cell v) as [[h1 [[[k n] o]|]]|] eqn:Hset; [| |done].
  - intros ->%on_change_heap. by eapply setter_observed.
  - intros [= <- _]. by eapply setter_observed.
Qed.

Lemma set_key_observed evaluate fuel key v h c h2 c2 d :
  k_data c = Some d →
  observed h d →
  key ∉ object_prototype →
  set_key evaluate fuel key v h c = Done (h2, c2) →
  observed h2 d.
Proof.
  intros Hd Hobs Hplain. unfold set_key. rewrite Hd.
  destruct (slot_of h d key) as [s|] eqn:Hs.
  - pose proof (Hobs [] d eq_refl key s Hs) as Ht.
    destruct (is_undefined_at h d key).
    + destruct (data_write evaluate fuel d key v h c) as [[h1 c1]| |] eqn:Hw; [|done..].
      simpl. destruct (observe fuel h1 (VRef d)) as [h3|] eqn:Hrun; [|done].
      intros [= <- _]. by eapply observe_observed.
    + by eapply data_write_observed.
  - unfold is_undefined_at. rewrite Hs, bool_decide_eq_false_2 by done. simpl.
    destruct (data_write evaluate fuel d key v h c) as [[h1 c1]| |] eqn:Hw; [|done..].
    simpl. destruct (observe fuel h1 (VRef d)) as [h3|] eqn:Hrun; [|done].
    intros [= <- _]. by eapply observe_observed.
Qed.











(** ** The claims about the component *)
















(** * Further properties *)

(** ** Observer *)

Lemma obj_set_same key s o : obj_get key o = Some s → obj_set key s o = o.
Proof.
  induction o as [|[k s0] o IH]; simpl; [done|].
  destruct (decide (k = key)); [by intros [= ->] | by intros ->%IH].
Qed.

Lemma put_slot_same h l key s : slot_of h l key = Some s → put_slot h l key s = h.
Proof.
  unfold slot_of, put_slot, obj_at. intros Hs.
  destruct (h !! l) as [o|] eqn:Hl; simpl in *; [|done].
  rewrite (obj_set_same _ _ _ Hs). by apply insert_id.
Qed.

Lemma acyclic_step n h d key :
  acyclic (S n) h (VRef d) = true → acyclic n h (read h d key) = true.
Proof.
  simpl. rewrite forallb_forall. intros Hac.
  destruct (decide (key ∈ keys h d)) as [Hin|Hout].
  - apply Hac. by apply list_elem_of_In.
  - unfold read. destruct (slot_of h d key) eqn:Hs; [|apply acyclic_prim].
    exfalso. apply Hout, elem_of_keys. eauto.
Qed.

Lemma acyclic_descend h path : ∀ n d l,
  acyclic n h (VRef d) = true → descend h d path = Some l →
  acyclic (n - length path) h (VRef l) = true.
Proof.
  induction path as [|key path IH]; intros n d l Hac Hpath; simpl in *.
  - simplify_eq. by rewrite Nat.sub_0_r.
  - destruct n as [|n]; [done|].
    destruct (read h d key) as [p|d'] eqn:Hread; [done|].
    apply (IH n d' l); [|done]. rewrite <- Hread. by apply acyclic_step.
Qed.

Lemma cyclic_not_acyclic h d path :
  descend h d path = Some d → path ≠ [] → ∀ n, acyclic n h (VRef d) = false.
Proof.
  intros Hpath Hne n. induction n as [n IH] using lt_wf_ind.
  destruct (acyclic n h (VRef d)) eqn:Hac; [|done].
  destruct n as [|n]; [done|].
  pose proof (acyclic_descend h path (S n) d d Hac Hpath) as Hsub.
  rewrite IH in Hsub; [done|]. destruct path; [done|]. simpl. lia.
Qed.

Lemma observe_keys_fuel (rec rec' : heap → value → option heap) l ks : ∀ h h',
  (∀ h0 v h1, rec h0 v = Some h1 → rec' h0 v = Some h1) →
  observe_keys rec l ks h = Some h' → observe_keys rec' l ks h = Some h'.
Proof.
  induction ks as [|key ks IH]; intros h h' Hrec; simpl; [done|].
  destruct (isObject (read h l key)).
  - destruct (rec h (read h l key)) as [h1|] eqn:Hh1; [|done].
    rewrite (Hrec _ _ _ Hh1). by apply IH.
  - by apply IH.
Qed.

Lemma observe_fuel_S n : ∀ h v h', observe n h v = Some h' → observe (S n) h v = Some h'.
Proof.
  induction n as [|n IH]; intros h [p|l] h' Hrun; try done.
  change (observe_keys (observe (S n)) l (keys h l) h = Some h').
  simpl in Hrun. by eapply observe_keys_fuel.
Qed.

Lemma observe_fuel_le n m h v h' : n ≤ m → observe n h v = Some h' → observe m h v = Some h'.
Proof. induction 1; [done|]. intros Hrun. by apply observe_fuel_S, IHle. Qed.

Lemma observe_keys_fixed (rec : heap → value → option heap) l h ks :
  all_tracked h l →
  Forall (fun key => key ∈ keys h l
                     ∧ (isObject (read h l key) = true → rec h (read h l key) = Some h)) ks →
  observe_keys rec l ks h = Some h.
Proof.
  intros Hall. induction ks as [|key ks IH]; intros Hks; simpl; [done|].
  apply Forall_cons in Hks as [[[s Hs]%elem_of_keys Hrec] Hks].
  assert (put_slot h l key (Tracked (read h l key)) = h) as Hput.
  { apply put_slot_same. unfold read. rewrite Hs.
    pose proof (Hall key s Hs). by destruct s. }
  destruct (isObject (read h l key)); [rewrite Hrec by done|]; rewrite Hput; by apply IH.
Qed.

(** Observing what is already instrumented changes nothing. *)
Lemma observe_fixed n : ∀ h v,
  acyclic n h v = true →
  (∀ d path l, v = VRef d → descend h d path = Some l → all_tracked h l) →
  observe n h v = Some h.
Proof.
  induction n as [|n IH]; intros h [p|d] Hac Hobs; try done.
  change (observe_keys (observe n) d (keys h d) h = Some h).
  apply observe_keys_fixed; [by apply (Hobs d [] d)|].
  apply Forall_forall. intros key Hkey. split; [done|]. intros Hobj.
  apply IH; [by apply acyclic_step|].
  intros d' path l Hread Hpath. apply (Hobs d (key :: path) l); [done|].
  simpl. by rewrite Hread.
Qed.

(** X1. [Observer.observe] on a container installs an accessor on every
    property of it and of every container nested in it, at any depth, and
    changes nothing else: every container of the heap keeps its property
    names, their order and their values. *)
Theorem observe_instruments_every_level (fuel : nat) (h : heap) (d : loc) (h' : heap) :
  observe fuel h (VRef d) = Some h' →
  observed h' d
  ∧ (∀ path l, descend h d path = Some l → descend h' d path = Some l)
  ∧ (∀ l, keys h' l = keys h l)
  ∧ (∀ l key, read h' l key = read h l key)
  ∧ (∀ l key cell, slot_of h l key = Some (Tracked cell) →
       slot_of h' l key = Some (Tracked cell)).
Proof.
  intros Hrun. pose proof (observe_le _ _ _ _ Hrun) as Hle.
  split; [by eapply observe_observed|].
  split; [intros path l Hp; by rewrite (descend_le _ _ _ _ Hle)|].
  split; [intros l; by apply heap_le_keys|].
  split; [intros l key; by apply heap_le_read|].
  intros l key cell. by apply heap_le_tracked.
Qed.

Lemma observe_instruments_every_level_witness :
  ∃ h', observe 2 nested_data (VRef 1) = Some h'
        ∧ observed h' 1
        ∧ read h' 0 "name" = VPrim (PStr "ann").
Proof.
  destruct (observe 2 nested_data (VRef 1)) as [h'|] eqn:Hrun; [|by vm_compute in Hrun].
  destruct (observe_instruments_every_level _ _ _ _ Hrun) as (Hobs & _ & _ & Hread & _).
  exists h'. split; [done|]. split; [done|]. by rewrite Hread.
Defined.

(** X2. [Observer.observe] has no guard against cycles: it returns exactly
    when the container graph below its argument is finite (of depth at most
    the available stack), the result does not depend on how much deeper the
    stack could have gone, and on a container that reaches itself through
    some property path it never returns. *)
Theorem observe_returns_iff_acyclic (n : nat) (h : heap) (v : value) :
  (is_Some (observe n h v) ↔ acyclic n h v = true)
  ∧ (∀ h' m, n ≤ m → observe n h v = Some h' → observe m h v = Some h')
  ∧ (∀ d path, v = VRef d → descend h d path = Some d → path ≠ [] →
       observe n h v = None).
Proof.
  split; [|split].
  - split; [intros [h' Hrun]; by eapply observe_acyclic | apply observe_total].
  - intros h' m. apply observe_fuel_le.
  - intros d path -> Hpath Hne.
    destruct (observe n h (VRef d)) as [h'|] eqn:Hrun; [|done].
    apply observe_acyclic in Hrun. by rewrite (cyclic_not_acyclic h d path) in Hrun.
Qed.

(** X3. Observing again is idempotent: a second [observe] of the same
    container (as [$set] does for the whole data after adding a key) returns
    and leaves the heap exactly as the first left it. *)
Theorem observe_again_changes_nothing (fuel : nat) (h : heap) (v : value) (h' : heap) :
  observe fuel h v = Some h' → observe fuel h' v = Some h'.
Proof.
  intros Hrun. pose proof (observe_le _ _ _ _ Hrun) as Hle.
  apply observe_fixed.
  - rewrite (acyclic_le _ _ _ _ Hle). by eapply observe_acyclic.
  - intros d path l -> Hpath. by eapply (observe_observed _ _ _ _ Hrun).
Qed.

Lemma observe_again_changes_nothing_witness :
  ∃ h', observe 2 nested_data (VRef 1) = Some h' ∧ observe 2 h' (VRef 1) = Some h'.
Proof.
  destruct (observe 2 nested_data (VRef 1)) as [h'|] eqn:Hrun; [|by vm_compute in Hrun].
  exists h'. split; [done|]. exact (observe_again_changes_nothing _ _ _ _ Hrun).
Defined.

(** ** Template engine *)

Lemma all_chars_app P a b :
  all_chars P (a ++ b)%string = all_chars P a && all_chars P b.
Proof.
  induction a as [|c a IH]; [done|].
  change (P c && all_chars P (a ++ b)%string = P c && all_chars P a && all_chars P b).
  rewrite IH. by destruct (P c).
Qed.

Lemma trim_left_all P s : all_chars P s = true → all_chars P (trim_left s) = true.
Proof.
  induction s as [|c s IH]; [done|]. simpl.
  destruct (is_space c); [|done]. intros [_ H]%andb_true_iff. by apply IH.
Qed.

Lemma trim_right_all P s : all_chars P s = true → all_chars P (trim_right s) = true.
Proof.
  induction s as [|c s IH]; [done|]. simpl. intros [Hc H]%andb_true_iff.
  specialize (IH H). destruct (trim_right s) as [|c' r].
  - destruct (is_space c); [done|]. simpl. by rewrite Hc.
  - simpl in *. by rewrite Hc.
Qed.

Lemma trim_left_fixed c s : is_space c = false → trim_left (String c s) = String c s.
Proof. intros H. simpl. by rewrite H. Qed.

Lemma trim_left_head s :
  match trim_left s with
  | String c _ => is_space c = false
  | EmptyString => True
  end.
Proof.
  induction s as [|c s IH]; [done|]. simpl.
  destruct (is_space c) eqn:Hc; [done|]. simpl. done.
Qed.

Lemma trim_right_head c s :
  is_space c = false → ∃ r, trim_right (String c s) = String c r.
Proof. intros Hc. simpl. destruct (trim_right s); rewrite ?Hc; eauto. Qed.

Lemma trim_right_idem s : trim_right (trim_right s) = trim_right s.
Proof.
  induction s as [|c s IH]; [done|]. simpl.
  destruct (trim_right s) as [|c' r] eqn:Hr.
  - destruct (is_space c) eqn:Hc; [done|]. simpl. by rewrite Hc.
  - change (trim_right (String c (String c' r))) with
      (match trim_right (String c' r) with
       | EmptyString => if is_space c then EmptyString else String c EmptyString
       | r0 => String c r0
       end).
    by rewrite IH.
Qed.

(** [trim] leaves a trimmed string as it is. *)
Lemma trim_idem s : trim (trim s) = trim s.
Proof.
  unfold trim. pose proof (trim_left_head s) as Hhead.
  destruct (trim_left s) as [|c t] eqn:Ht; [done|].
  destruct (trim_right_head c t Hhead) as [r Hr]. rewrite Hr.
  rewrite (trim_left_fixed _ _ Hhead), <- Hr. apply trim_right_idem.
Qed.

Lemma text_token_nonempty s : Forall (fun tok => tok = Text s ∧ s ≠ EmptyString) (text_token s).
Proof. destruct s; repeat constructor; done. Qed.

Lemma scan_well_formed d0 d1 fuel : ∀ s,
  Forall (fun tok =>
            match tok with
            | Text v => v ≠ EmptyString
            | Expression e =>
                trim e = e ∧ all_chars (fun c => negb (is_line_terminator c)) e = true
            end) (scan fuel d0 d1 s).
Proof.
  induction fuel as [|fuel IH]; intros s; [constructor|]. cbn [scan].
  destruct (exec d0 d1 s) as [[[skipped group] rest]|] eqn:Hexec.
  - apply Forall_app. split.
    { eapply Forall_impl; [apply text_token_nonempty|]. by intros tok [-> ?]. }
    constructor; [|apply IH]. split; [apply trim_idem|].
    destruct (exec_Some _ _ _ _ _ _ Hexec) as (matched & _ & Hm & _).
    destruct (match_here_Some _ _ _ _ _ Hm) as (ws1 & ws2 & _ & _ & _ & _ & Hg).
    unfold trim. by apply trim_right_all, trim_left_all.
  - eapply Forall_impl; [apply text_token_nonempty|]. by intros tok [-> ?].
Qed.

(** X4. The tokens that [Template.compile] makes of any template, for any
    delimiters: a text token is never empty, and the value of an expression
    token has no white space at either end and no line terminator (it may be
    empty). *)
Theorem tokens_are_well_formed (d0 d1 source : string) :
  Forall (fun tok =>
            match tok with
            | Text v => v ≠ EmptyString
            | Expression e =>
                trim e = e ∧ all_chars (fun c => negb (is_line_terminator c)) e = true
            end) (tokenize d0 d1 source).
Proof. apply scan_well_formed. Qed.

Lemma occurs_app d a b : occurs d (a ++ d ++ b)%string = true.
Proof.
  induction a as [|c a IH].
  - change (occurs d (d ++ b)%string = true).
    assert (∀ s, strip_prefix d (d ++ s)%string = Some s) as Hp.
    { clear. induction d as [|c d IH]; intros s; [done|].
      change (strip_prefix (String c d) (String c (d ++ s)%string) = Some s).
      simpl. by rewrite decide_True. }
    destruct (d ++ b)%string eqn:E; simpl; rewrite <- E, Hp; done.
  - change (occurs d (String c (a ++ d ++ b)%string) = true).
    simpl. destruct (strip_prefix d _); [done|]. exact IH.
Qed.

Lemma exec_occurs d0 d1 s r :
  exec d0 d1 s = Some r → occurs d0 s = true ∧ occurs d1 s = true.
Proof.
  destruct r as [[skipped group] rest]. intros Hexec.
  destruct (exec_Some _ _ _ _ _ _ Hexec) as (matched & -> & Hm & _).
  destruct (match_here_Some _ _ _ _ _ Hm) as (ws1 & ws2 & -> & _).
  split.
  - apply occurs_app.
  - rewrite <- !append_assoc. rewrite (append_assoc _ d1 rest). apply occurs_app.
Qed.

Lemma map_tokens_text evaluate h data s :
  map_tokens evaluate h data (text_token s)
  = (match s with EmptyString => [] | _ => [VPrim (PStr s)] end, []).
Proof. by destruct s. Qed.

(** X5. A template in which the opening or the closing delimiter does not
    occur has no interpolation: [render] returns the template itself and
    writes no diagnostic, whatever the data (the template not being the name
    of a member of [Object.prototype]). *)
Theorem template_without_delimiter_is_verbatim
    (evaluate : heap -> context -> string -> evaluation)
    (source : string) (data : context) (h : heap) (t : Template) :
  sound t →
  source ∉ object_prototype →
  occurs (delimiters t).1 source = false ∨ occurs (delimiters t).2 source = false →
  tokenize (delimiters t).1 (delimiters t).2 source = text_token source
  ∧ (render evaluate source data h t).1 = Done (Markup source, []).
Proof.
  intros Hs Hplain Hno.
  assert (tokenize (delimiters t).1 (delimiters t).2 source = text_token source) as Htok.
  { rewrite tokenize_unfold.
    destruct (exec _ _ source) as [r|] eqn:Hexec; [|done].
    destruct (exec_occurs _ _ _ _ Hexec) as [H0 H1].
    destruct Hno as [Hno|Hno]; congruence. }
  split; [done|]. rewrite render_plain by done. rewrite Htok, map_tokens_text.
  destruct source; [done|]. simpl. by rewrite append_nil_r.
Qed.

Lemma template_without_delimiter_is_verbatim_witness :
  (render lookup_evaluate "a }} b" [] ∅ new_template).1 = Done (Markup "a }} b", []).
Proof.
  apply (template_without_delimiter_is_verbatim lookup_evaluate "a }} b" [] ∅ new_template).
  - apply sound_new_template.
  - by apply not_inherited.
  - left. reflexivity.
Defined.

Lemma cache_get_compile_all a r bs : ∀ t,
  cache_get t a = Some r → cache_get (compile_all bs t) a = Some r.
Proof.
  induction bs as [|b bs IH]; intros t Ha; [done|].
  change (cache_get (compile_all bs (compile b t).2) a = Some r). apply IH.
  unfold compile. destruct (cache_get t b) as [rb|] eqn:Hb; [done|]. simpl.
  unfold cache_get in *. simpl.
  destruct (decide (b = a)) as [->|Hne]; [congruence|].
  by rewrite lookup_insert_ne.
Qed.

Lemma cache_get_compile a t : cache_get (compile a t).2 a = Some (compile a t).1.
Proof.
  unfold compile. destruct (cache_get t a) as [r|] eqn:Ha; [done|].
  unfold cache_get. simpl. by rewrite lookup_insert_eq.
Qed.

(** X6. The cache of a [Template] never evicts or replaces an entry:
    whatever templates are compiled after [a], in any number, a later
    [compile(a)] returns the very renderer of the first call and leaves the
    engine as it is. *)
Theorem compile_result_survives_other_templates
    (a : string) (others : list string) (t : Template) :
  compile a (compile_all others (compile a t).2)
  = ((compile a t).1, compile_all others (compile a t).2).
Proof.
  pose proof (cache_get_compile_all a _ others _ (cache_get_compile a t)) as Hget.
  unfold compile at 1. by rewrite Hget.
Qed.




Lemma compile_cases b t :
  ((compile b t).2 = t ∧ (b ∈ dom (cache t) ∨ b ∈ object_prototype))
  ∨ ((b ∉ dom (cache t)) ∧ (b ∉ object_prototype)
     ∧ (dom (cache (compile b t).2) = {[b]} ∪ dom (cache t))
     ∧ scans (compile b t).2 = S (scans t)).
Proof.
  unfold compile, cache_get. destruct (cache t !! b) as [r|] eqn:Hb.
  - left. split; [done|]. left. apply elem_of_dom. eauto.
  - case_bool_decide as Hin; [left; by split; [|right]|].
    right. simpl. split; [by apply not_elem_of_dom|]. split; [done|].
    by rewrite dom_insert_L.
Qed.

Lemma compile_all_dom bs : ∀ t,
  dom (cache (compile_all bs t))
  = dom (cache t) ∪ list_to_set (filter (fun b => b ∉ object_prototype) bs)
  ∧ scans (compile_all bs t) + size (dom (cache t))
    = scans t + size (dom (cache (compile_all bs t))).
Proof.
  induction bs as [|b bs IH]; intros t.
  { simpl. split; [by rewrite (right_id_L ∅ (∪)) | lia]. }
  change (compile_all (b :: bs) t) with (compile_all bs (compile b t).2).
  destruct (IH (compile b t).2) as [Hdom Hsc].
  destruct (compile_cases b t) as [[Heq Hin]|(Hout & Hplain & Hd & Hn)].
  - rewrite Heq in Hdom, Hsc |- *. split; [|done]. rewrite Hdom.
    destruct (decide (b ∉ object_prototype)) as [Hp|Hp].
    + rewrite filter_cons_True by done. destruct Hin as [Hin|Hin]; [|done].
      rewrite list_to_set_cons, (assoc_L (∪)). f_equal.
      symmetry. rewrite (comm_L (∪) (dom (cache t))).
      apply subseteq_union_1_L. by apply singleton_subseteq_l.
    + by rewrite filter_cons_False.
  - rewrite filter_cons_True by done. rewrite list_to_set_cons.
    rewrite Hd in Hdom. rewrite Hd, Hn in Hsc.
    rewrite size_union in Hsc by by apply disjoint_singleton_l.
    rewrite size_singleton in Hsc.
    split; [|lia]. by rewrite Hdom, (comm_L (∪) {[b]}), (assoc_L (∪)).
Qed.

(** X8. However often and in whatever order templates are compiled on a
    [new Template()], the tokenizer has run once for each distinct template
    string among them (those that name a member of [Object.prototype] are
    never tokenized), and these strings are the keys of the cache. *)
Theorem tokenizes_each_template_once (compiled : list string) :
  let t := compile_all compiled new_template in
  let distinct : gset string :=
    list_to_set (filter (fun b => b ∉ object_prototype) compiled) in
  scans t = size distinct ∧ dom (cache t) = distinct.
Proof.
  destruct (compile_all_dom compiled new_template) as [Hdom Hsc].
  simpl in *. rewrite dom_empty_L in *. rewrite size_empty in Hsc.
  rewrite (left_id_L ∅ (∪)) in Hdom. split; [|done]. rewrite <- Hdom. lia.
Qed.

(** X9. The loop of [Template.compile] ends on every template, for any
    delimiters, also empty ones: a match takes at least one code unit (the
    group is never empty), so each round leaves a strictly shorter rest, and
    as many rounds as the template has code units, plus one, always
    suffice. *)
Theorem tokenizer_always_stops (d0 d1 source : string) (fuel : nat) :
  String.length source < fuel →
  scan fuel d0 d1 source = tokenize d0 d1 source
  ∧ (∀ skipped group rest,
       exec d0 d1 source = Some (skipped, group, rest) →
       group ≠ EmptyString ∧ String.length rest < String.length source).
Proof.
  intros Hfuel. split.
  - unfold tokenize. apply scan_fuel; [done|lia].
  - intros skipped group rest Hexec. split; [|by eapply exec_shorter].
    destruct (exec_Some _ _ _ _ _ _ Hexec) as (matched & _ & Hm & _).
    by destruct (match_here_Some _ _ _ _ _ Hm) as (ws1 & ws2 & _ & Hg & _).
Qed.

Lemma tokenizer_always_stops_witness :
  scan 100 EmptyString EmptyString "ab" = [Expression "a"; Expression "b"].
Proof.
  rewrite (proj1 (tokenizer_always_stops EmptyString EmptyString "ab" 100
                    ltac:(simpl; lia))).
  reflexivity.
Defined.

Lemma backslash_special : is_special backslash = true.
Proof. reflexivity. Qed.

(** X10. [Template.escapeRegExp] makes a pattern that matches its argument
    literally: every special character of the argument is escaped, none is
    left bare, and the pattern reads back as the argument itself. This is why
    a [Template] with [escape: true] matches its delimiters as plain text. *)
Theorem escapeRegExp_is_literal (s : string) :
  pattern_literal (escapeRegExp s) = Some s
  ∧ (all_chars (fun c => negb (is_special c)) s = true → escapeRegExp s = s).
Proof.
  split.
  - induction s as [|c s IH]; [done|]. cbn [escapeRegExp].
    destruct (is_special c) eqn:Hc.
    + change (pattern_literal (String backslash (String c (escapeRegExp s))))
        with (if is_special c then
                match pattern_literal (escapeRegExp s) with
                | Some s0 => Some (String c s0)
                | None => None
                end
              else None).
      by rewrite Hc, IH.
    + cbn [pattern_literal]. rewrite Hc, IH.
      rewrite bool_decide_eq_false_2; [done|]. intros ->. by rewrite backslash_special in Hc.
  - induction s as [|c s IH]; [done|]. simpl.
    intros [Hc Hs]%andb_true_iff. apply negb_true_iff in Hc. by rewrite Hc, IH.
Qed.

(** ** Event emitter *)






(** ** Component *)



(** X14. The accessors outlive the component. A data container obtained
    before [$destroy] stays instrumented: writing a different value to one of
    its properties afterwards fails in the observer callback, which reads a
    property of [this.options], now [null]; writing the value it holds is
    still a no-op. *)
Theorem write_after_destroy_fails
    (evaluate : heap -> context -> string -> evaluation) (fuel : nat)
    (c c' : kiwi) (h : heap) (l : loc) (key : string) (cell v : value) :
  kiwi_destroy c = Done c' →
  slot_of h l key = Some (Tracked cell) →
  v ≠ cell →
  acyclic fuel (put_slot h l key (Tracked v)) v = true →
  data_write evaluate fuel l key v h c'
  = TypeError "Cannot read properties of null (reading 'beforeUpdate')"
  ∧ data_write evaluate fuel l key cell h c' = Done (h, c').
Proof.
  intros Hdes Hs Hne Hac. split; [|by apply write_same].
  destruct (write_distinct (on_change evaluate) fuel l key cell v h c' Hs Hne Hac)
    as (h2 & _ & Hw & _).
  unfold data_write. rewrite Hw. unfold kiwi_destroy in Hdes.
  destruct (k_options c) as [o|]; [|done]. injection Hdes as <-.
  unfold on_change, emit. simpl. rewrite !run_hook_record. simpl.
  by rewrite lookup_empty.
Qed.

Lemma write_after_destroy_fails_witness :
  ∃ h c c',
    new_kiwi lookup_evaluate 1 counter_options ∅ = Done (h, c)
    ∧ kiwi_destroy c = Done c'
    ∧ data_write lookup_evaluate 1 0 "a" (VPrim (PNum 1)) h c'
      = TypeError "Cannot read properties of null (reading 'beforeUpdate')".
Proof.
  destruct (new_kiwi lookup_evaluate 1 counter_options ∅) as [[h c]| |] eqn:Hnew;
    [|by vm_compute in Hnew..].
  vm_compute in Hnew. injection Hnew as Hh Hc.
  destruct (kiwi_destroy c) as [c'| |] eqn:Hdes;
    [|rewrite <- Hc in Hdes; by vm_compute in Hdes..].
  exists h, c, c'. split; [done|]. split; [done|].
  refine (proj1 (write_after_destroy_fails lookup_evaluate 1 c c' h 0 "a"
                   (VPrim (PNum 0)) (VPrim (PNum 1)) Hdes _ _ _)).
  - by rewrite <- Hh.
  - done.
  - done.
Defined.


























(** ** Utilities *)

Lemma lower_unit_not_capital c : is_capital (lower_unit c) = false.
Proof. by destruct c as [[] [] [] [] [] [] [] []]; vm_compute. Qed.

Lemma lower_unit_fixed c : is_capital c = false → lower_unit c = c.
Proof. unfold lower_unit. by intros ->. Qed.

Lemma upper_is_capital c : is_upper c = true → is_capital c = true.
Proof. unfold is_capital, is_upper. by intros ->. Qed.

Lemma upper_lower_unit c :
  is_upper c = true → is_lower (lower_unit c) = true ∧ upper_letter (lower_unit c) = c.
Proof. by destruct c as [[] [] [] [] [] [] [] []]; vm_compute. Qed.

Lemma toLowerCase_no_capital s : all_chars (fun c => negb (is_capital c)) (toLowerCase s) = true.
Proof.
  induction s as [|c s IH]; [done|]. simpl. by rewrite lower_unit_not_capital, IH.
Qed.

Lemma toLowerCase_fixed s :
  all_chars (fun c => negb (is_capital c)) s = true → toLowerCase s = s.
Proof.
  induction s as [|c s IH]; [done|]. simpl.
  intros [Hc Hs]%andb_true_iff. apply negb_true_iff in Hc.
  by rewrite lower_unit_fixed, IH.
Qed.

Lemma hyphenate_fixed s :
  all_chars (fun c => negb (is_capital c)) s = true → hyphenate s = s.
Proof.
  induction s as [|a s IH]; [done|]. intros [Ha Hs]%andb_true_iff.
  specialize (IH Hs). destruct s as [|b s']; [done|].
  change (hyphenate (String a (String b s')))
    with (if is_lower a && is_upper b
          then String a (String "-" (String b (hyphenate s')))
          else String a (hyphenate (String b s'))).
  simpl in Hs. apply andb_true_iff in Hs as [Hb _]. apply negb_true_iff in Hb.
  assert (is_upper b = false) as ->.
  { destruct (is_upper b) eqn:E; [|done]. by rewrite (upper_is_capital b E) in Hb. }
  by rewrite andb_false_r, IH.
Qed.

(** X22. [utils.kebabCase] is idempotent, and its result has no capital
    letter. *)
Theorem kebabCase_is_idempotent (s : string) :
  kebabCase (kebabCase s) = kebabCase s
  ∧ all_chars (fun c => negb (is_capital c)) (kebabCase s) = true.
Proof.
  pose proof (toLowerCase_no_capital (hyphenate s)) as Hlow.
  split; [|done]. unfold kebabCase at 1.
  change (toLowerCase (hyphenate s)) with (kebabCase s) in Hlow.
  by rewrite (hyphenate_fixed _ Hlow), (toLowerCase_fixed _ Hlow).
Qed.

Lemma camelCase_cons c s :
  c ≠ "-"%char → camelCase (String c s) = String c (camelCase s).
Proof.
  intros Hc. destruct s as [|c1 s']; [done|].
  change (camelCase (String c (String c1 s')))
    with (if bool_decide (c = "-"%char) && is_lower c1
          then String (upper_letter c1) (camelCase s')
          else String c (camelCase (String c1 s'))).
  by rewrite bool_decide_eq_false_2.
Qed.

Lemma camelCase_hyphen c s :
  is_lower c = true →
  camelCase (String "-" (String c s)) = String (upper_letter c) (camelCase s).
Proof.
  intros Hc.
  change (camelCase (String "-" (String c s)))
    with (if bool_decide ("-"%char = "-"%char) && is_lower c
          then String (upper_letter c) (camelCase s)
          else String "-" (camelCase (String c s))).
  by rewrite Hc.
Qed.

Lemma lower_not_upper c : is_lower c = true → is_upper c = false.
Proof. by destruct c as [[] [] [] [] [] [] [] []]; vm_compute. Qed.

Lemma camel_round_trip n : ∀ s,
  String.length s ≤ n → camel_from false s = true → camelCase (kebabCase s) = s.
Proof.
  induction n as [|n IH]; intros s Hlen Hs.
  { destruct s; [done | simpl in Hlen; lia]. }
  destruct s as [|a [|b s']]; [done| |].
  - simpl in Hs. destruct (is_upper a); [done|].
    rewrite andb_true_r in Hs. apply andb_true_iff in Hs as [_ Ha%negb_true_iff].
    unfold kebabCase. simpl. by rewrite (lower_unit_fixed _ Ha).
  - change (camel_from false (String a (String b s')))
      with ((if is_upper a then false
             else negb (bool_decide (a = "-"%char)) && negb (is_capital a))
            && camel_from (is_lower a) (String b s')) in Hs.
    destruct (is_upper a) eqn:Hau; [done|].
    apply andb_true_iff in Hs as [[Hah%negb_true_iff Hac%negb_true_iff]%andb_true_iff Hrest].
    apply bool_decide_eq_false in Hah.
    change (camel_from (is_lower a) (String b s'))
      with ((if is_upper b then is_lower a
             else negb (bool_decide (b = "-"%char)) && negb (is_capital b))
            && camel_from (is_lower b) s') in Hrest.
    unfold kebabCase.
    change (hyphenate (String a (String b s')))
      with (if is_lower a && is_upper b
            then String a (String "-" (String b (hyphenate s')))
            else String a (hyphenate (String b s'))).
    destruct (is_upper b) eqn:Hbu.
    + apply andb_true_iff in Hrest as [Hal Hs'].
      assert (is_lower b = false) as Hbl.
      { destruct (is_lower b) eqn:E; [|done]. by rewrite (lower_not_upper b E) in Hbu. }
      rewrite Hbl in Hs'. rewrite Hal. cbn [andb toLowerCase].
      change (lower_unit "-") with "-"%char.
      rewrite (lower_unit_fixed _ Hac).
      destruct (upper_lower_unit b Hbu) as [Hl Hu].
      rewrite camelCase_cons by done. rewrite camelCase_hyphen by done. rewrite Hu.
      do 2 f_equal. apply (IH s'); [simpl in Hlen; lia | done].
    + rewrite andb_false_r.
      change (toLowerCase (String a (hyphenate (String b s'))))
        with (String (lower_unit a) (toLowerCase (hyphenate (String b s')))).
      rewrite (lower_unit_fixed _ Hac), camelCase_cons by done. f_equal.
      apply (IH (String b s')); [simpl in *; lia|].
      change (camel_from false (String b s'))
        with ((if is_upper b then false
               else negb (bool_decide (b = "-"%char)) && negb (is_capital b))
              && camel_from (is_lower b) s').
      by rewrite Hbu.
Qed.

(** X23. [utils.camelCase] undoes [utils.kebabCase] on a camel-case word (a
    string with no hyphen and no capital letter outside [A-Z], in which every
    letter of [A-Z] follows a letter of [a-z]). *)
Theorem camelCase_undoes_kebabCase (s : string) :
  camel_word s = true → camelCase (kebabCase s) = s.
Proof. apply (camel_round_trip (String.length s)). lia. Qed.

Lemma camelCase_undoes_kebabCase_witness :
  kebabCase "fontSizeAdjust" = "font-size-adjust"
  ∧ camelCase (kebabCase "fontSizeAdjust") = "fontSizeAdjust".
Proof.
  split; [reflexivity|]. apply camelCase_undoes_kebabCase. reflexivity.
Defined.

Lemma filter_ext_elem {A} (P Q : A → Prop)
    `{!∀ x, Decision (P x)} `{!∀ x, Decision (Q x)} (l : list A) :
  (∀ x, x ∈ l → (P x ↔ Q x)) → filter P l = filter Q l.
Proof.
  induction l as [|x l IH]; intros Hext; [done|].
  assert (filter P l = filter Q l) as Hl.
  { apply IH. intros y Hy. apply Hext. by right. }
  destruct (decide (P x)) as [HP|HP].
  - rewrite !filter_cons_True; [by rewrite Hl|by apply Hext; [left|]|done].
  - rewrite !filter_cons_False; [done| |done]. intros HQ. apply HP, Hext; [by left|done].
Qed.















Lemma agree_dom old h1 h2 l : agree old h1 h2 → l ∉ old → l ∈ dom h1 → l ∈ dom h2.
Proof.
  intros Ha Hl Hd. apply elem_of_dom. rewrite Ha by done. by apply elem_of_dom.
Qed.

Lemma agree_trans old h1 h2 h3 :
  agree old h1 h2 → agree old h2 h3 → agree old h1 h3.
Proof.
  intros H12 H23 l Hl Hd. rewrite H23; [by apply H12|done|by eapply agree_dom].
Qed.








Lemma agree_weaken old h1 h2 : agree ∅ h1 h2 → agree old h1 h2.
Proof. intros Ha l _ Hd. apply Ha; [set_solver|done]. Qed.








(** ** The event emitter with [once] *)

Lemma emitter_apply_direct event args (rs : list listener) : ∀ e,
  foldl (fun e' r => Emitter.apply event args r e') e (Emitter.Direct <$> rs)
  = Emitter.record (flat_map (call_listener args) rs) e.
Proof.
  induction rs as [|r rs IH]; intros e; simpl.
  - destruct e. unfold Emitter.record. simpl. by rewrite app_nil_r.
  - rewrite IH. unfold Emitter.record. simpl. by rewrite <- app_assoc.
Qed.

Lemma filter_direct (f : listener) (rs : list listener) :
  filter (fun cb => cb ≠ Emitter.Direct f) (Emitter.Direct <$> rs)
  = Emitter.Direct <$> filter (fun cb => cb ≠ f) rs.
Proof.
  induction rs as [|r rs IH]; [done|]. rewrite fmap_cons.
  destruct (decide (r = f)) as [->|Hne].
  - rewrite !filter_cons_False by (by intros ?). exact IH.
  - rewrite !filter_cons_True by congruence. by rewrite fmap_cons, IH.
Qed.

(** The listener table of a component behaves as an [EventEmitter] in which
    nothing was registered with [once]. *)
Lemma component_is_an_emitter event f args (c : kiwi) :
  Emitter.on event (Emitter.Direct f) (emitter_of c) = emitter_of (on event f c)
  ∧ Emitter.off event (Some (Emitter.Direct f)) (emitter_of c)
    = emitter_of (off event (Some f) c)
  ∧ Emitter.off event None (emitter_of c) = emitter_of (off event None c)
  ∧ Emitter.emit event args (emitter_of c)
    = ((emit event args c).1, emitter_of (emit event args c).2).
Proof.
  assert (Emitter.events (emitter_of c) !! event
          = fmap (M := list) Emitter.Direct <$> (k_events c !! event)) as Hlook.
  { unfold emitter_of. simpl. by rewrite lookup_fmap. }
  repeat split.
  - unfold Emitter.on, on. rewrite Hlook.
    assert (default [] (fmap (M := list) Emitter.Direct <$> k_events c !! event)
            = Emitter.Direct <$> default [] (k_events c !! event)) as ->.
    { by destruct (k_events c !! event). }
    rewrite length_fmap. simpl.
    destruct (decide (k_maxListeners c ≤ length (default [] (k_events c !! event))));
      unfold emitter_of, Emitter.with_events; simpl;
      by rewrite fmap_insert, fmap_app.
  - unfold Emitter.off, off. rewrite Hlook.
    destruct (k_events c !! event) as [rs|]; simpl; [|done].
    unfold emitter_of, Emitter.with_events. simpl. by rewrite fmap_insert, filter_direct.
  - unfold Emitter.off, off. rewrite Hlook.
    destruct (k_events c !! event) as [rs|]; simpl; [|done].
    unfold emitter_of, Emitter.with_events. simpl. by rewrite fmap_delete.
  - unfold Emitter.emit, emit. rewrite Hlook.
    destruct (k_events c !! event) as [rs|]; simpl; [|done].
    by rewrite emitter_apply_direct.
Qed.

Lemma emitter_apply_all event args (rs : list Emitter.registered) : ∀ (e : Emitter.t) array,
  Emitter.events e !! event = Some array →
  let e' := foldl (fun e0 r => Emitter.apply event args r e0) e rs in
  Emitter.events e'
  = <[event := filter (fun r => Emitter.is_direct r = true ∨ r ∉ rs) array]> (Emitter.events e)
  ∧ Emitter.log e'
    = Emitter.log e ++ flat_map (fun r => call_listener args (Emitter.callback_of r)) rs
  ∧ Emitter.next e' = Emitter.next e
  ∧ Emitter.maxListeners e' = Emitter.maxListeners e.
Proof.
  induction rs as [|r rs IH]; intros e array Harray.
  { simpl. rewrite app_nil_r. split; [|done].
    rewrite filter_all; [by rewrite insert_id|].
    apply Forall_forall. intros x _. right. apply not_elem_of_nil. }
  cbn [foldl]. destruct r as [f|id callback].
  - destruct (IH (Emitter.apply event args (Emitter.Direct f) e) array Harray)
      as (Hev & Hlog & Hnext & Hmax).
    simpl in *. rewrite Hev, Hlog, Hnext, Hmax. split; [|by rewrite <- app_assoc].
    f_equal. apply list_filter_iff. intros x. rewrite elem_of_cons.
    split; [intros [?|Hx]; [by left|]|intros [?|Hx]; [by left|]].
    + destruct x as [g|i g]; [by left|]. right. intros [?|?]; [done|by apply Hx].
    + destruct x as [g|i g]; [by left|]. right. intros ?. apply Hx. by right.
  - set (r := Emitter.OnceCallback id callback).
    assert (Emitter.events (Emitter.apply event args r e)
            = <[event := filter (fun cb => cb ≠ r) array]> (Emitter.events e)) as Hoff.
    { unfold Emitter.apply, r, Emitter.off. simpl. by rewrite Harray. }
    destruct (IH (Emitter.apply event args r e) (filter (fun cb => cb ≠ r) array))
      as (Hev & Hlog & Hnext & Hmax).
    { by rewrite Hoff, lookup_insert_eq. }
    cbv zeta. rewrite Hev, Hlog, Hnext, Hmax, Hoff. clear Hev Hlog Hnext Hmax.
    assert (Emitter.log (Emitter.apply event args r e)
            = Emitter.log e ++ call_listener args callback
            ∧ Emitter.next (Emitter.apply event args r e) = Emitter.next e
            ∧ Emitter.maxListeners (Emitter.apply event args r e) = Emitter.maxListeners e)
      as (-> & -> & ->).
    { unfold Emitter.apply, r, Emitter.off. simpl. by rewrite Harray. }
    split; [|by rewrite <- app_assoc].
    rewrite insert_insert_eq. f_equal. rewrite list_filter_filter.
    apply list_filter_iff. intros x. rewrite elem_of_cons.
    split.
    + intros [[Hd|Hx] Hne]; [by left|]. right. intros [->|?]; [done|by apply Hx].
    + intros [Hd|Hx].
      * split; [by left|]. intros ->. done.
      * split; [right; intros ?; apply Hx; by right|]. intros ->. apply Hx. by left.
Qed.

Lemma emitter_filter_direct (rs : list Emitter.registered) :
  filter (fun r => Emitter.is_direct r = true ∨ r ∉ rs) rs
  = filter (fun r => Emitter.is_direct r = true) rs.
Proof.
  apply filter_ext_elem. intros x Hx. split; [|by left]. by intros [?|?].
Qed.

Lemma emitter_emit event args (e : Emitter.t) array :
  Emitter.events e !! event = Some array →
  ∃ e',
    Emitter.emit event args e = (true, e')
    ∧ Emitter.events e' !! event = Some (filter (fun r => Emitter.is_direct r = true) array)
    ∧ Emitter.log e'
      = Emitter.log e ++ flat_map (fun r => call_listener args (Emitter.callback_of r)) array.
Proof.
  intros Harray. unfold Emitter.emit. rewrite Harray. eexists. split; [done|].
  destruct (emitter_apply_all event args array e array Harray) as (Hev & Hlog & _).
  split; [|done]. rewrite Hev, lookup_insert_eq. f_equal.
  apply emitter_filter_direct.
Qed.

Lemma emitter_once_array event callback (e : Emitter.t) :
  Emitter.events (Emitter.once event callback e) !! event
  = Some (Emitter.array_of event e ++ [Emitter.OnceCallback (Emitter.next e) callback]).
Proof.
  unfold Emitter.once, Emitter.on, Emitter.array_of. simpl.
  destruct (decide _); simpl; by rewrite lookup_insert_eq.
Qed.

Lemma emitter_filter_direct_again (rs : list Emitter.registered) :
  filter (fun r => Emitter.is_direct r = true) (filter (fun r => Emitter.is_direct r = true) rs)
  = filter (fun r => Emitter.is_direct r = true) rs.
Proof. rewrite list_filter_filter. apply list_filter_iff. tauto. Qed.

(** X27. A listener registered with [once] runs on the next [emit] of its
    event and never again. That [emit] calls every function of the event in
    the order of registration, the [once] callbacks among them, none being
    skipped although each [once] callback removes itself while the array is
    iterated; afterwards the event holds the functions registered with [on]
    only, and a second [emit] calls just those. Stated for an event name that
    [Object.prototype] does not define. *)
Theorem once_callback_runs_once
    (event : string) (callback : listener) (args : list value) (e : Emitter.t) :
  event ∉ object_prototype →
  let e1 := Emitter.once event callback e in
  let before := Emitter.array_of event e in
  let calls (rs : list Emitter.registered) :=
    flat_map (fun r => call_listener args (Emitter.callback_of r)) rs in
  ∃ e2 e3,
    Emitter.emit event args e1 = (true, e2)
    ∧ Emitter.log e2 = Emitter.log e1 ++ calls before ++ call_listener args callback
    ∧ Emitter.array_of event e2 = filter (fun r => Emitter.is_direct r = true) before
    ∧ Emitter.emit event args e2 = (true, e3)
    ∧ Emitter.log e3
      = Emitter.log e2 ++ calls (filter (fun r => Emitter.is_direct r = true) before)
    ∧ Emitter.array_of event e3 = Emitter.array_of event e2.
Proof.
  intros _ e1 before calls.
  destruct (emitter_emit event args e1 _ (emitter_once_array event callback e))
    as (e2 & Hemit & Hev2 & Hlog).
  rewrite filter_app, filter_cons_False, filter_nil, app_nil_r in Hev2 by done.
  destruct (emitter_emit event args e2 _ Hev2) as (e3 & Hemit3 & Hev3 & Hlog3).
  rewrite emitter_filter_direct_again in Hev3.
  exists e2, e3. split; [done|]. split.
  { rewrite Hlog. unfold calls. rewrite flat_map_app. simpl. by rewrite app_nil_r. }
  split; [unfold Emitter.array_of; by rewrite Hev2|]. split; [done|]. split; [done|].
  unfold Emitter.array_of. by rewrite Hev3, Hev2.
Qed.

Lemma once_callback_runs_once_witness :
  ∃ e2 e3,
    Emitter.emit "tick" [] (Emitter.once "tick" (Handler 1)
                              (Emitter.on "tick" (Emitter.Direct (Handler 2)) Emitter.create))
    = (true, e2)
    ∧ Emitter.log e2 = [Handled 2 []; Handled 1 []]
    ∧ Emitter.emit "tick" [] e2 = (true, e3)
    ∧ Emitter.log e3 = [Handled 2 []; Handled 1 []; Handled 2 []].
Proof.
  destruct (once_callback_runs_once "tick" (Handler 1) []
              (Emitter.on "tick" (Emitter.Direct (Handler 2)) Emitter.create))
    as (e2 & e3 & Hemit & Hlog & _ & Hemit3 & Hlog3 & _).
  { by apply not_inherited. }
  exists e2, e3. split; [done|]. split; [done|]. split; [done|].
  rewrite Hlog3, Hlog. reflexivity.
Defined.

(** X28. A [once] registration cannot be cancelled with the callback it was
    given: [off(event, callback)] compares with the [onceCallback] closure,
    which is another function, so it removes only what was registered with
    [on] and the next [emit] still calls the callback. Stated for an event
    name that [Object.prototype] does not define. *)
Theorem off_does_not_cancel_once
    (event : string) (callback : listener) (args : list value) (e : Emitter.t) :
  event ∉ object_prototype →
  let e1 := Emitter.off event (Some (Emitter.Direct callback))
              (Emitter.once event callback e) in
  let kept := filter (fun r => r ≠ Emitter.Direct callback) (Emitter.array_of event e) in
  Emitter.array_of event e1 = kept ++ [Emitter.OnceCallback (Emitter.next e) callback]
  ∧ ∃ e2,
      Emitter.emit event args e1 = (true, e2)
      ∧ Emitter.log e2
        = Emitter.log e1
          ++ flat_map (fun r => call_listener args (Emitter.callback_of r)) kept
          ++ call_listener args callback.
Proof.
  intros _ e1 kept.
  assert (Emitter.events e1 !! event
          = Some (kept ++ [Emitter.OnceCallback (Emitter.next e) callback])) as Hev.
  { unfold e1, Emitter.off. rewrite emitter_once_array. simpl.
    rewrite lookup_insert_eq, filter_app. rewrite filter_cons_True by done.
    by rewrite filter_nil. }
  split; [unfold Emitter.array_of; by rewrite Hev|].
  destruct (emitter_emit event args e1 _ Hev) as (e2 & Hemit & _ & Hlog).
  exists e2. split; [done|]. rewrite Hlog, flat_map_app. simpl. by rewrite app_nil_r.
Qed.

Lemma off_does_not_cancel_once_witness :
  ∃ e2,
    Emitter.emit "tick" [] (Emitter.off "tick" (Some (Emitter.Direct (Handler 1)))
                              (Emitter.once "tick" (Handler 1) Emitter.create))
    = (true, e2)
    ∧ Emitter.log e2 = [Handled 1 []].
Proof.
  destruct (off_does_not_cancel_once "tick" (Handler 1) [] Emitter.create)
    as (_ & e2 & Hemit & Hlog).
  { by apply not_inherited. }
  exists e2. split; [done|]. rewrite Hlog. reflexivity.
Defined.

(** ** Timers *)

Lemma call_throttled_burst (more : list (list value)) : ∀ s,
  inThrottle s = true →
  foldl (fun s' a => call_throttled a s') s more = s.
Proof.
  induction more as [|a more IH]; intros s Hs; [done|]. simpl.
  unfold call_throttled at 2. rewrite Hs. by apply IH.
Qed.

(** X29. A throttled function passes on the first call and drops the
    others, until its timer fires: of a run of calls that begins when the
    function is not throttled only the first reaches [fn]; the calls made
    before the timer fires are lost, none is deferred, and the timer itself
    calls nothing, it only lets the next call through. *)
Theorem throttle_drops_calls_until_timer
    (args : list value) (more : list (list value)) (later : list value)
    (s : throttled) :
  inThrottle s = false →
  let s1 := foldl (fun s' a => call_throttled a s') s (args :: more) in
  throttled_calls s1 = throttled_calls s ++ [args]
  ∧ throttled_calls (throttle_timer s1) = throttled_calls s ++ [args]
  ∧ throttled_calls (call_throttled later (throttle_timer s1))
    = throttled_calls s ++ [args; later].
Proof.
  intros Hs. cbn [foldl].
  assert (call_throttled args s
          = {| inThrottle := true; resets := S (resets s);
               throttled_calls := throttled_calls s ++ [args] |}) as ->.
  { unfold call_throttled. by rewrite Hs. }
  rewrite call_throttled_burst by done. simpl.
  split; [done|]. split; [done|]. by rewrite <- app_assoc.
Qed.

Lemma throttle_drops_calls_until_timer_witness :
  throttled_calls
    (foldl (fun s' a => call_throttled a s') throttle
       [[VPrim (PNum 1)]; [VPrim (PNum 2)]; [VPrim (PNum 3)]])
  = [[VPrim (PNum 1)]].
Proof.
  exact (proj1 (throttle_drops_calls_until_timer [VPrim (PNum 1)]
                  [[VPrim (PNum 2)]; [VPrim (PNum 3)]] [] throttle eq_refl)).
Defined.

Lemma call_debounced_burst (calls : list (list value)) : ∀ s,
  let s' := foldl (fun s0 a => call_debounced a s0) s calls in
  debounced_calls s' = debounced_calls s
  ∧ timer s' = match last calls with Some a => Some a | None => timer s end.
Proof.
  induction calls as [|a calls IH]; intros s; [done|].
  cbn [foldl]. destruct (IH (call_debounced a s)) as [Hcalls Htimer].
  split; [done|]. cbv zeta. rewrite Htimer.
  destruct calls as [|b calls']; [done|].
  change (last (a :: b :: calls')) with (last (b :: calls')).
  destruct (last (b :: calls')) eqn:Hlast; [done|]. by apply last_None in Hlast.
Qed.

(** X30. A debounced function calls [fn] once per burst, with the arguments
    of the last call: during a run of calls nothing reaches [fn], each call
    cancelling the timer of the one before; when the timer fires, [fn] is
    called with the arguments of the last call of the run, and no timer is
    left pending. *)
Theorem debounce_keeps_the_last_call
    (args : list value) (more : list (list value)) (s : debounced) :
  let burst := args :: more in
  let s1 := foldl (fun s' a => call_debounced a s') s burst in
  debounced_calls s1 = debounced_calls s
  ∧ debounced_calls (debounce_timer s1)
    = debounced_calls s ++ [default args (last burst)]
  ∧ timer (debounce_timer s1) = None.
Proof.
  destruct (call_debounced_burst (args :: more) s) as [Hcalls Htimer].
  cbv zeta in *. split; [done|].
  destruct (last (args :: more)) as [a|] eqn:Hlast.
  - unfold debounce_timer. rewrite Htimer. cbn [debounced_calls timer].
    by rewrite Hcalls.
  - by apply last_None in Hlast.
Qed.
